(** * jsonrq: a worker pool that fetches and decodes JSON documents

    A shallow embedding of [jsonrq.go].  The file follows the source from
    top to bottom: the error values and the [BasicRequest] latch, the
    [JSONRequest] interface, the body of [Worker], the [Pool] with its
    unbuffered channel and [sync.WaitGroup], and the entry points [Do] and
    [DoN].  Goroutines are modelled by an interleaving transition system
    whose steps are the calls the source makes.

    What the model takes for granted:
    - the collaborators ([http.NewRequest], [http.DefaultClient.Do],
      [json.Decoder.Decode], [resp.Body.Close]) are not part of the
      package; they return, and they may return anything of their type;
    - a task is a reference into a store of task objects, so that the same
      task can be sent twice; a nil [JSONRequest] is not a task;
    - a worker that finds the channel closed leaves the loop and calls
      [wg.Done()] in one step;
    - [NewPool] is one step: a worker started with [go] does nothing that
      can be seen before it waits at the channel;
    - [uint] and [int] are 64 bits wide, and the counter of a
      [sync.WaitGroup] is an [int] that must not become negative. *)

From stdpp Require Import base tactics option list functions strings.
From Stdlib Require Import ZArith Lia.

(** ** Error values *)

(** A Go [error] is an interface value that may be [nil].  The errors seen
    by this package come from its collaborators ([net/http],
    [encoding/json]) and are annotated with [errors.Wrap]. *)
Inductive goerror : Type :=
| Failure (msg : string)
| Wrapped (cause : goerror) (msg : string).

Definition error : Type := option goerror.

Definition nil : error := None.

(** [errors.Wrap(err, msg)]: nil stays nil, anything else is annotated. *)
Definition Wrap (err : error) (msg : string) : error :=
  match err with
  | None => None
  | Some e => Some (Wrapped e msg)
  end.

(** ** BasicRequest *)

Record BasicRequest : Type := mkBasicRequest {
  err : error;
  url : string
}.

(** [*http.Request], as far as this package looks at it. *)
Record HttpRequest : Type := mkHttpRequest {
  Method : string;
  URL : string
}.

Definition msg_create : string := "Error creating BasicRequest".

(** [http.NewRequest(method, url, nil)], a collaborator: the request
    pointer and the error, both of which the caller uses on their own. *)
Class Requester : Type :=
  NewRequest : string → string → option HttpRequest * error.

Module Basic.

Definition NewBasicRequest (u : string) : BasicRequest :=
  {| err := nil; url := u |}.

Definition Err (r : BasicRequest) : error := err r.

(** [if r.err == nil || err != nil { r.err = err }] *)
Definition SetErr (e : error) (r : BasicRequest) : BasicRequest :=
  if bool_decide (err r = nil) || negb (bool_decide (e = nil))
  then {| err := e; url := url r |}
  else r.

Definition Request `{!Requester} (r : BasicRequest)
    : option HttpRequest * BasicRequest :=
  let '(request, e) := NewRequest "GET"%string (url r) in
  (request, SetErr (Wrap e msg_create) r).

(** A sequence of [SetErr] calls on one task, first call first. *)
Definition SetErrs (es : list error) (r : BasicRequest) : BasicRequest :=
  foldl (λ acc e, SetErr e acc) r es.

End Basic.

(** The value the specification expects in the latch after the calls [es]:
    the argument of the last call whose argument was not nil, or nil. *)
Fixpoint last_non_nil (es : list error) : error :=
  match es with
  | [] => nil
  | e :: rest =>
      match last_non_nil rest with
      | Some e' => Some e'
      | None => e
      end
  end.

#[global] Instance goerror_eq_dec : EqDecision goerror.
Proof. solve_decision. Defined.

(** ** Collaborators *)

(** [*http.Response]: the body that the decoder reads, and what
    [resp.Body.Close()] is going to return. *)
Record Response : Type := mkResponse {
  Body : string;
  CloseErr : error
}.

(** What [http.DefaultClient.Do] hands back, as the source reads it: a
    response when [err == nil], and otherwise the error alone, since the
    response is not looked at on that path. *)
Definition reply : Type := Response + goerror.

(** [json.NewDecoder(body).Decode(target)] for targets of type [D]: the
    value left in the target, and the error. *)
Class Decoder (D : Type) : Type := Decode : string → D → D * error.

(** ** The JSONRequest interface *)

(** A task of type [T] whose [Data()] points to a [D].  Methods with a
    pointer receiver take the object and return it updated; [Store] is a
    write through the pointer that [Data()] returned. *)
Class JSONRequest (D T : Type) : Type := {
  Request : T → option HttpRequest * T;
  Data : T → D;
  Store : D → T → T;
  SetErr : error → T → T;
  Err : T → error;
  Done : T → T
}.

(** The smallest type that embeds [BasicRequest] and supplies the two
    methods [BasicRequest] lacks: a decode target, and a [Done] that counts
    its calls. *)
Record Job (D : Type) : Type := mkJob {
  basic : BasicRequest;
  target : D;
  signals : nat
}.
Arguments mkJob {D} _ _ _.
Arguments basic {D} _.
Arguments target {D} _.
Arguments signals {D} _.

Definition Job_Request {D : Type} `{!Requester} (j : Job D)
    : option HttpRequest * Job D :=
  let '(request, b) := Basic.Request (basic j) in
  (request, mkJob b (target j) (signals j)).

#[global] Instance Job_JSONRequest {D : Type} `{!Requester}
    : JSONRequest D (Job D) := {|
  Request := Job_Request;
  Data := target;
  Store := λ d j, mkJob (basic j) d (signals j);
  SetErr := λ e j, mkJob (Basic.SetErr e (basic j)) (target j) (signals j);
  Err := λ j, Basic.Err (basic j);
  Done := λ j, mkJob (basic j) (target j) (S (signals j))
|}.

(** ** Worker *)

(** Tasks live in a store and are passed around by reference, so the same
    task may be handed to the pool more than once. *)
Definition ptr : Type := nat.

(** One event per call the worker or the caller makes. *)
Inductive event : Type :=
| EvTake (w : nat) (r : ptr)
| EvRequest (w : nat) (r : ptr)
| EvFetch (w : nat) (r : ptr)
| EvSetErr (w : nat) (r : ptr) (e : error)
| EvDecode (w : nat) (r : ptr)
| EvClose (w : nat) (r : ptr)
| EvDone (w : nat) (r : ptr)
| EvExit (w : nat).

(** Where a worker goroutine stands. *)
Inductive wstate : Type :=
| WRecv
| WRequest (r : ptr)
| WFetch (r : ptr) (req : option HttpRequest)
| WFetchErr (r : ptr) (e : goerror)
| WDecode (r : ptr) (resp : Response)
| WDecodeErr (r : ptr) (resp : Response) (e : goerror)
| WClose (r : ptr) (resp : Response)
| WDone (r : ptr)
| WExit.

Definition holding (pc : wstate) : option ptr :=
  match pc with
  | WRecv | WExit => None
  | WRequest r | WFetch r _ | WFetchErr r _ | WDecode r _
  | WDecodeErr r _ _ | WClose r _ | WDone r => Some r
  end.

Definition mid_fetch (pc : wstate) : bool :=
  match pc with WFetch _ _ => true | _ => false end.

Definition msg_http : string := "HTTP: Error performing request".
Definition msg_json : string := "JSON: Error decoding response".

Section Worker.
Context {D T : Type} `{!JSONRequest D T} `{!Decoder D}.

(** The next call of worker [w] on the task [t] it holds; [rep] is what
    the transport answers if that call is the fetch. *)
Definition call (w : nat) (rep : reply) (pc : wstate) (t : T)
    : option (wstate * T * event) :=
  match pc with
  | WRequest r =>
      let '(req, t') := Request t in
      Some (WFetch r req, t', EvRequest w r)
  | WFetch r req =>
      match rep with
      | inr e => Some (WFetchErr r e, t, EvFetch w r)
      | inl resp => Some (WDecode r resp, t, EvFetch w r)
      end
  | WFetchErr r e =>
      let e' := Wrap (Some e) msg_http in
      Some (WDone r, SetErr e' t, EvSetErr w r e')
  | WDecode r resp =>
      let '(d, oe) := Decode (Body resp) (Data t) in
      Some (match oe with
            | Some e => WDecodeErr r resp e
            | None => WClose r resp
            end, Store d t, EvDecode w r)
  | WDecodeErr r resp e =>
      let e' := Wrap (Some e) msg_json in
      Some (WClose r resp, SetErr e' t, EvSetErr w r e')
  | WClose r resp =>
      Some (WDone r, SetErr (CloseErr resp) t, EvClose w r)
  | WDone r => Some (WRecv, Done t, EvDone w r)
  | WRecv | WExit => None
  end.

(** The function literal in [Worker], run on one task without
    interruption. *)
Definition serve (transport : option HttpRequest → reply) (t : T) : T :=
  let '(req, t) := Request t in
  match transport req with
  | inr e => SetErr (Wrap (Some e) msg_http) t
  | inl resp =>
      let deferred := SetErr (CloseErr resp) in
      let '(d, oe) := Decode (Body resp) (Data t) in
      let t := Store d t in
      match oe with
      | Some e => deferred (SetErr (Wrap (Some e) msg_json) t)
      | None => deferred t
      end
  end.

(** One turn of the loop in [Worker]: the function literal, then
    [r.Done()]. *)
Definition turn (transport : option HttpRequest → reply) (t : T) : T :=
  Done (serve transport t).

(** At most [fuel] calls of worker [w] in a row. *)
Fixpoint drive (fuel : nat) (w : nat) (rep : reply) (pc : wstate) (t : T)
    : wstate * T * list event :=
  match fuel with
  | O => (pc, t, [])
  | S fuel' =>
      match call w rep pc t with
      | None => (pc, t, [])
      | Some (pc', t', ev) =>
          let '(pc'', t'', evs) := drive fuel' w rep pc' t' in
          (pc'', t'', ev :: evs)
      end
  end.

End Worker.

(** The calls of one turn on a task whose fetch succeeded. *)
Definition turn_calls (w : nat) (r : ptr) (oe : error) : list event :=
  [EvRequest w r; EvFetch w r; EvDecode w r]
  ++ match oe with
     | Some e => [EvSetErr w r (Wrap (Some e) msg_json)]
     | None => []
     end
  ++ [EvClose w r; EvDone w r].

(** ** Pool *)

(** [uint] and [int] are 64 bits wide. *)
Definition to_uint (z : Z) : Z := (z mod 2 ^ 64)%Z.

Definition to_int (z : Z) : Z :=
  let m := (z mod 2 ^ 64)%Z in
  if (m <? 2 ^ 63)%Z then m else (m - 2 ^ 64)%Z.

(** The goroutine that makes the pool, sends the tasks and stops the pool:
    still sending [todo], waiting in [wg.Wait()], or back from [Stop]. *)
Inductive cstate : Type :=
| CDo (todo : list ptr)
| CWait
| CReturned.

(** The channel [p.in] (unbuffered: only open or closed), the counter of
    [*p.wg], the worker goroutines, the caller, the task store, the calls
    made so far (newest first), and whether some goroutine panicked. *)
Record sys (T : Type) : Type := mkSys {
  caller : cstate;
  closed : bool;
  wg : Z;
  workers : list wstate;
  heap : ptr → T;
  log : list event;
  crashed : bool
}.
Arguments mkSys {T} _ _ _ _ _ _ _.
Arguments caller {T} _.
Arguments closed {T} _.
Arguments wg {T} _.
Arguments workers {T} _.
Arguments heap {T} _.
Arguments log {T} _.
Arguments crashed {T} _.

(** What a scheduler can pick: the rendezvous of the caller's send with the
    receive of worker [w], the caller's [close], the return of [wg.Wait()],
    or the next call of worker [w]. *)
Inductive label : Type :=
| LSend (w : nat)
| LClose
| LWait
| LWork (w : nat) (rep : reply).

Section Pool.
Context {D T : Type} `{!JSONRequest D T} `{!Decoder D}.

(** [NewPool(n)] for a [uint] n.  [wg.Add] panics on a negative counter,
    before any worker is started. *)
Definition NewPool (n : Z) (h : ptr → T) : sys T :=
  if (to_int n <? 0)%Z
  then mkSys (CDo []) false 0%Z [] h [] true
  else mkSys (CDo []) false (to_int n) (replicate (Z.to_nat n) WRecv) h [] false.

(** The caller goes on with [p.Do(rqs...)] and [p.Stop()]. *)
Definition batch (rqs : list ptr) (s : sys T) : sys T :=
  mkSys (CDo rqs) (closed s) (wg s) (workers s) (heap s) (log s) (crashed s).

Definition Do (rqs : list ptr) (h : ptr → T) : sys T :=
  batch rqs (NewPool (to_uint (Z.of_nat (length rqs))) h).

Definition DoN (n : Z) (rqs : list ptr) (h : ptr → T) : sys T :=
  let n := if (n <? 1)%Z then 1%Z else n in
  batch rqs (NewPool n h).

Definition step (l : label) (s : sys T) : option (sys T) :=
  if crashed s then None else
  match l with
  | LSend w =>
      match caller s, workers s !! w with
      | CDo (r :: todo), Some WRecv =>
          if closed s
          then Some (mkSys (caller s) (closed s) (wg s) (workers s)
                       (heap s) (log s) true)
          else Some (mkSys (CDo todo) (closed s) (wg s)
                       (<[w := WRequest r]> (workers s))
                       (heap s) (EvTake w r :: log s) false)
      | _, _ => None
      end
  | LClose =>
      match caller s with
      | CDo [] =>
          Some (mkSys CWait true (wg s) (workers s) (heap s) (log s)
                  (closed s))
      | _ => None
      end
  | LWait =>
      match caller s with
      | CWait =>
          if (wg s =? 0)%Z
          then Some (mkSys CReturned (closed s) (wg s) (workers s)
                       (heap s) (log s) false)
          else None
      | _ => None
      end
  | LWork w rep =>
      match workers s !! w with
      | Some pc =>
          match holding pc with
          | Some r =>
              match call w rep pc (heap s r) with
              | Some (pc', t', ev) =>
                  Some (mkSys (caller s) (closed s) (wg s)
                          (<[w := pc']> (workers s))
                          (<[r := t']> (heap s)) (ev :: log s) false)
              | None => None
              end
          | None =>
              match pc with
              | WRecv =>
                  if closed s
                  then Some (mkSys (caller s) (closed s) (wg s - 1)%Z
                               (<[w := WExit]> (workers s))
                               (heap s) (EvExit w :: log s)
                               (wg s - 1 <? 0)%Z)
                  else None
              | _ => None
              end
          end
      | None => None
      end
  end.

(** A schedule, first choice first. *)
Fixpoint run (ls : list label) (s : sys T) : option (sys T) :=
  match ls with
  | [] => Some s
  | l :: ls' =>
      match step l s with
      | Some s' => run ls' s'
      | None => None
      end
  end.

End Pool.

#[global] Instance HttpRequest_eq_dec : EqDecision HttpRequest.
Proof. solve_decision. Defined.

#[global] Instance Response_eq_dec : EqDecision Response.
Proof. solve_decision. Defined.

#[global] Instance wstate_eq_dec : EqDecision wstate.
Proof. solve_decision. Defined.

(** ** Observations on the log and on the worker slots *)

(** The tasks received from the channel and the tasks whose [Done] was
    called, newest first. *)
Definition taken (evs : list event) : list ptr :=
  omap (λ ev, match ev with EvTake _ r => Some r | _ => None end) evs.

Definition finished (evs : list event) : list ptr :=
  omap (λ ev, match ev with EvDone _ r => Some r | _ => None end) evs.

Definition occurrences (r : ptr) (l : list ptr) : nat :=
  length (filter (λ x, x = r) l).

Definition holders (r : ptr) (ws : list wstate) : nat :=
  length (filter (λ pc, holding pc = Some r) ws).

Definition busy (ws : list wstate) : nat :=
  length (filter (λ pc, is_Some (holding pc)) ws).

Definition fetching (ws : list wstate) : nat :=
  length (filter (λ pc, mid_fetch pc = true) ws).

Definition alive (ws : list wstate) : nat :=
  length (filter (λ pc, pc ≠ WExit) ws).

#[global] Instance event_eq_dec : EqDecision event.
Proof. solve_decision. Defined.

(** How often worker [w] received [r], and how often it called [Done]
    on it. *)
Definition took (w : nat) (r : ptr) (evs : list event) : nat :=
  length (filter (λ ev, ev = EvTake w r) evs).

Definition signalled (w : nat) (r : ptr) (evs : list event) : nat :=
  length (filter (λ ev, ev = EvDone w r) evs).

Definition actor (ev : event) : nat :=
  match ev with
  | EvTake w _ | EvRequest w _ | EvFetch w _ | EvSetErr w _ _
  | EvDecode w _ | EvClose w _ | EvDone w _ | EvExit w => w
  end.

(** The completion protocol of one worker, as the specification words it:
    a task is taken, then the fetch is attempted, then [Done] is called,
    and only then the next task is taken or the worker leaves. *)
Inductive phase : Type :=
| Idle
| Taken (r : ptr)
| Attempted (r : ptr)
| Gone.

Definition same (r r' : ptr) (ph : phase) : option phase :=
  if bool_decide (r = r') then Some ph else None.

Definition observe (w : nat) (ph : phase) (ev : event) : option phase :=
  if bool_decide (actor ev = w) then
    match ev, ph with
    | EvTake _ r, Idle => Some (Taken r)
    | EvFetch _ r, Taken r' => same r r' (Attempted r)
    | EvDone _ r, Attempted r' => same r r' Idle
    | EvExit _, Idle => Some Gone
    | EvRequest _ r, Taken r' => same r r' ph
    | (EvSetErr _ r _ | EvDecode _ r | EvClose _ r), Attempted r' =>
        same r r' ph
    | _, _ => None
    end
  else Some ph.

Definition protocol (w : nat) (evs : list event) : option phase :=
  foldr (λ ev acc, acc ≫= λ ph, observe w ph ev) (Some Idle) evs.

Definition engaged (ph : phase) : option ptr :=
  match ph with
  | Taken r | Attempted r => Some r
  | Idle | Gone => None
  end.

Definition phase_of (pc : wstate) : phase :=
  match pc with
  | WRecv => Idle
  | WRequest r | WFetch r _ => Taken r
  | WFetchErr r _ | WDecode r _ | WDecodeErr r _ _ | WClose r _
  | WDone r => Attempted r
  | WExit => Gone
  end.

(** ** Measures used for termination *)

Definition wrank (pc : wstate) : nat :=
  match pc with
  | WExit => 0
  | WRecv => 1
  | WDone _ => 2
  | WClose _ _ => 3
  | WFetchErr _ _ => 3
  | WDecodeErr _ _ _ => 4
  | WDecode _ _ => 5
  | WFetch _ _ => 6
  | WRequest _ => 7
  end.

Definition crank (c : cstate) : nat :=
  match c with
  | CDo todo => 2 + 7 * length todo
  | CWait => 1
  | CReturned => 0
  end.

Definition measure {T : Type} (s : sys T) : nat :=
  crank (caller s) + sum_list (wrank <$> workers s).

Definition indicator (P : Prop) `{!Decision P} : nat :=
  if decide P then 1 else 0.

(** ** The invariant of a pool of [N] workers that is fed [rqs] *)

Definition todo_of (c : cstate) : list ptr :=
  match c with
  | CDo todo => todo
  | CWait | CReturned => []
  end.

Record inv {T : Type} (N : nat) (rqs : list ptr) (s : sys T) : Prop := mkInv {
  inv_sound : crashed s = false;
  inv_size : length (workers s) = N;
  inv_wg : wg s = Z.of_nat (alive (workers s));
  inv_open : closed s = false → alive (workers s) = N;
  inv_caller :
    closed s = match caller s with CDo _ => false | _ => true end;
  inv_ret : caller s = CReturned → wg s = 0%Z;
  inv_order : rev (taken (log s)) ++ todo_of (caller s) = rqs;
  inv_count : ∀ r,
    occurrences r (taken (log s)) =
    occurrences r (finished (log s)) + holders r (workers s);
  inv_proto : ∀ w pc,
    workers s !! w = Some pc → protocol w (log s) = Some (phase_of pc);
  inv_quiet : ∀ w,
    length (workers s) ≤ w → protocol w (log s) = Some Idle;
  inv_flight :
    length (taken (log s)) = length (finished (log s)) + busy (workers s)
}.

(** ** The store against the log *)

Section Store.
Context {D T : Type} `{!JSONRequest D T} `{!Decoder D}.

(** [count] reads off a task object how often [Done] was called on it:
    [Done] adds one, and no other method changes it. *)
Definition counts_Done (count : T → nat) : Prop :=
  (∀ t, count (Done t) = S (count t))
  ∧ (∀ t, count (Request t).2 = count t)
  ∧ (∀ d t, count (Store d t) = count t)
  ∧ (∀ e t, count (SetErr e t) = count t).

(** The object [t] is what some number of calls of worker [w], from the
    start of a turn on [t0], have made of it, and [pc] is where the worker
    stands after them. *)
Definition in_turn (w : nat) (r : ptr) (t0 : T) (pc : wstate) (t : T)
    : Prop :=
  ∃ k rep evs, drive k w rep (WRequest r) t0 = (pc, t, evs).

(** Where the object of a task [r] that is sent once stands: untouched
    before it is received, in the middle of a turn while a worker holds
    it, and the result of one whole turn after its [Done]. *)
Record served (r : ptr) (h : ptr → T) (s : sys T) : Prop := mkServed {
  served_before : occurrences r (taken (log s)) = 0 → heap s r = h r;
  served_during : ∀ w pc,
    workers s !! w = Some pc → holding pc = Some r →
    in_turn w r (h r) pc (heap s r);
  served_after :
    0 < occurrences r (finished (log s)) →
    ∃ rep, heap s r = turn (λ _, rep) (h r)
}.

End Store.

(** ** Further observations *)

#[global] Instance phase_eq_dec : EqDecision phase.
Proof. solve_decision. Defined.

(** How often worker [w] got an answer from the transport for [r]. *)
Definition fetched_by (w : nat) (r : ptr) (evs : list event) : nat :=
  length (filter (λ ev, ev = EvFetch w r) evs).

(** The arguments of the [SetErr] calls that one turn of the worker makes
    on a task that embeds [BasicRequest], in the order of the calls: the
    one in [Request], then either the one for the transport error, or the
    one for the decode error (if any) and the deferred one. *)
Definition recorded {D : Type} `{!Decoder D} `{!Requester}
    (transport : option HttpRequest → reply) (j : Job D) : list error :=
  let '(req, e0) := NewRequest "GET"%string (url (basic j)) in
  Wrap e0 msg_create ::
  match transport req with
  | inr e => [Wrap (Some e) msg_http]
  | inl resp =>
      let '(_, oe) := Decode (Body resp) (target j) in
      match oe with
      | Some e => [Wrap (Some e) msg_json]
      | None => []
      end ++ [CloseErr resp]
  end.

(** ** A concrete world, for the examples *)

Module Sample.

(** A [http.NewRequest] that rejects the empty URL. *)
#[global] Instance requester : Requester :=
  λ m u,
    if bool_decide (u = ""%string)
    then (None, Some (Failure "parse: empty url"))
    else (Some (mkHttpRequest m u), None).

(** A decoder for targets of type [nat] that understands one document. *)
#[global] Instance decode : Decoder nat :=
  λ body d,
    if bool_decide (body = "42"%string)
    then (42, None)
    else (d, Some (Failure "invalid character")).

(** Task 0 has a good URL, every other task has the empty one. *)
Definition store : ptr → Job nat :=
  λ r, mkJob (Basic.NewBasicRequest
                (if bool_decide (r = 0) then "http://a" else "")) 0 0.

Definition ok : reply := inl (mkResponse "42" None).
Definition leaky : reply :=
  inl (mkResponse "42" (Some (Failure "close: broken pipe"))).
Definition refused : reply := inr (Failure "connection refused").

(** A schedule that serves one task with one worker and stops the pool. *)
Definition one_task : list label :=
  [LSend 0; LWork 0 ok; LWork 0 ok; LWork 0 ok; LWork 0 ok; LWork 0 ok;
   LClose; LWork 0 ok; LWait].

(** A task with a good URL that carries an error from an earlier use. *)
Definition stale : Job nat :=
  mkJob (mkBasicRequest (Some (Failure "left over")) "http://a") 0 0.

(** A pool of one worker that is in the middle of the fetch for task 0. *)
Definition fetching_state : sys (Job nat) :=
  mkSys (CDo []) false 1
    [WFetch 0 (Some (mkHttpRequest "GET" "http://a"))]
    store [EvRequest 0 0; EvTake 0 0] false.

End Sample.

(** * Proofs *)

(** ** The latch *)

Lemma SetErr_Some (e : goerror) (r : BasicRequest) :
  Basic.Err (Basic.SetErr (Some e) r) = Some e.
Proof.
  unfold Basic.SetErr, Basic.Err.
  rewrite (bool_decide_eq_false_2 (Some e = nil)) by done.
  rewrite orb_true_r. done.
Qed.

Lemma SetErr_nil_Err (r : BasicRequest) :
  Basic.Err (Basic.SetErr nil r) = Basic.Err r.
Proof.
  destruct r as [[e|] u]; reflexivity.
Qed.

Lemma SetErrs_snoc (es : list error) (e : error) (r : BasicRequest) :
  Basic.SetErrs (es ++ [e]) r = Basic.SetErr e (Basic.SetErrs es r).
Proof. unfold Basic.SetErrs. by rewrite foldl_app. Qed.

Lemma last_non_nil_snoc (es : list error) (e : error) :
  last_non_nil (es ++ [e]) =
  match e with Some _ => e | None => last_non_nil es end.
Proof.
  induction es as [|e0 es IH]; simpl.
  - by destruct e.
  - rewrite IH. destruct e; [done|]. done.
Qed.

Lemma SetErrs_Err (es : list error) (r : BasicRequest) :
  Basic.Err (Basic.SetErrs es r) =
  match last_non_nil es with
  | Some e => Some e
  | None => Basic.Err r
  end.
Proof.
  induction es as [|e es IH] using rev_ind; [done|].
  rewrite SetErrs_snoc, last_non_nil_snoc.
  destruct e as [e|].
  - apply SetErr_Some.
  - by rewrite SetErr_nil_Err.
Qed.

(** C1. Error latch: after any sequence of [SetErr] calls on a fresh task,
    [Err] returns the argument of the last call with a non-nil argument, or
    nil if there was none; [SetErr(nil)] never clears a recorded error; and
    [SetErr] with a non-nil argument always replaces the current value. *)
Theorem error_latch :
  (∀ (u : string) (es : list error),
     Basic.Err (Basic.SetErrs es (Basic.NewBasicRequest u)) = last_non_nil es)
  ∧ (∀ (r : BasicRequest) (es : list error),
     Basic.Err (Basic.SetErrs es r) =
       match last_non_nil es with Some e => Some e | None => Basic.Err r end)
  ∧ (∀ (r : BasicRequest), Basic.Err (Basic.SetErr nil r) = Basic.Err r)
  ∧ (∀ (r : BasicRequest) (e : goerror),
     Basic.Err (Basic.SetErr (Some e) r) = Some e).
Proof.
  repeat split.
  - intros u es. rewrite SetErrs_Err. simpl. by destruct (last_non_nil es).
  - intros r es. apply SetErrs_Err.
  - apply SetErr_nil_Err.
  - intros r e. apply SetErr_Some.
Qed.

(** ** Counting under an update of one slot *)

Lemma filter_length_insert {A : Type} (P : A → Prop) `{!∀ x, Decision (P x)}
    (l : list A) (i : nat) (x y : A) :
  l !! i = Some x →
  length (filter P (<[i:=y]> l)) + indicator (P x) =
  length (filter P l) + indicator (P y).
Proof.
  revert i.
  induction l as [|a l IH]; intros i Hi; [done|].
  destruct i as [|i]; simpl in Hi.
  - injection Hi as ->. change (<[0:=y]> (x :: l)) with (y :: l).
    rewrite !filter_cons. unfold indicator.
    repeat case_decide; simpl; lia.
  - specialize (IH i Hi).
    change (<[S i:=y]> (a :: l)) with (a :: <[i:=y]> l).
    rewrite !filter_cons.
    destruct (decide (P a)); simpl; lia.
Qed.

Lemma sum_wrank_insert (ws : list wstate) (w : nat) (pc pc' : wstate) :
  ws !! w = Some pc →
  sum_list (wrank <$> <[w:=pc']> ws) + wrank pc =
  sum_list (wrank <$> ws) + wrank pc'.
Proof.
  revert w. induction ws as [|a ws IH]; intros w Hw; [done|].
  destruct w as [|w]; simpl in Hw.
  - injection Hw as ->. change (<[0:=pc']> (pc :: ws)) with (pc' :: ws).
    rewrite !fmap_cons. simpl. lia.
  - specialize (IH w Hw).
    change (<[S w:=pc']> (a :: ws)) with (a :: <[w:=pc']> ws).
    rewrite !fmap_cons. simpl. lia.
Qed.

Lemma filter_length_le {A : Type} (P : A → Prop) `{!∀ x, Decision (P x)}
    (l : list A) :
  length (filter P l) ≤ length l.
Proof.
  induction l as [|a l IH]; [done|].
  rewrite filter_cons. destruct (decide (P a)); simpl; lia.
Qed.


Lemma filter_length_none {A : Type} (P : A → Prop) `{!∀ x, Decision (P x)}
    (l : list A) :
  length (filter P l) = 0 → Forall (λ x, ¬ P x) l.
Proof.
  induction l as [|a l IH]; [by constructor|].
  rewrite filter_cons.
  destruct (decide (P a)); simpl; intros Hlen; [lia|].
  constructor; [done|]. by apply IH.
Qed.

Lemma filter_length_mono {A : Type} (P Q : A → Prop)
    `{!∀ x, Decision (P x)} `{!∀ x, Decision (Q x)} (l : list A) :
  (∀ x, P x → Q x) →
  length (filter P l) ≤ length (filter Q l).
Proof.
  intros HPQ. induction l as [|a l IH]; [done|].
  rewrite !filter_cons.
  destruct (decide (P a)) as [HP|], (decide (Q a)) as [|HQ]; simpl; try lia.
  destruct HQ. by apply HPQ.
Qed.

Lemma filter_length_replicate {A : Type} (P : A → Prop)
    `{!∀ x, Decision (P x)} (n : nat) (x : A) :
  length (filter P (replicate n x)) = n * indicator (P x).
Proof.
  unfold indicator. induction n as [|n IH]; [done|].
  simpl. rewrite filter_cons. destruct (decide (P x)); simpl; lia.
Qed.

(** ** One call of a worker *)

(** Split a hypothesis [call w rep pc t = Some _] into the cases of [pc]
    and of the collaborators' answers. *)
Ltac call_cases Hc pc :=
  destruct pc; simpl in Hc;
  repeat match type of Hc with
         | context [match ?x with _ => _ end] => destruct x eqn:?
         | context [let '(_, _) := ?x in _] => destruct x eqn:?
         end;
  simplify_eq.

Section WorkerFacts.
Context {D T : Type} `{!JSONRequest D T} `{!Decoder D}.

Lemma same_refl (r : ptr) (ph : phase) : same r r ph = Some ph.
Proof. unfold same. by rewrite bool_decide_eq_true_2. Qed.

Lemma call_enabled (w : nat) (rep : reply) (pc : wstate) (t : T) (r : ptr) :
  holding pc = Some r → is_Some (call w rep pc t).
Proof.
  destruct pc; simpl; try done; intros _;
    repeat case_match; eauto.
Qed.

Lemma call_facts (w : nat) (rep : reply) (pc pc' : wstate) (t t' : T)
    (ev : event) :
  call w rep pc t = Some (pc', t', ev) →
  actor ev = w ∧ pc ≠ WExit ∧ pc' ≠ WExit ∧ wrank pc' < wrank pc
  ∧ observe w (phase_of pc) ev = Some (phase_of pc')
  ∧ taken [ev] = [].
Proof.
  intros Hc. unfold observe.
  call_cases Hc pc; simpl;
    rewrite ?bool_decide_eq_true_2, ?same_refl by done;
    repeat split; try done; try lia.
Qed.

Lemma call_keeps (w : nat) (rep : reply) (pc pc' : wstate) (t t' : T)
    (ev : event) (r : ptr) :
  call w rep pc t = Some (pc', t', ev) →
  holding pc = Some r →
  (holding pc' = Some r ∧ finished [ev] = [])
  ∨ (pc = WDone r ∧ pc' = WRecv ∧ ev = EvDone w r).
Proof.
  intros Hc Hr.
  call_cases Hc pc; simpl in *; simplify_eq; eauto.
Qed.

(** Running the calls one after the other is running the function
    literal and then [Done]. *)
Lemma drive_turn (w : nat) (rep : reply) (r : ptr) (t : T) :
  ∃ evs, drive 6 w rep (WRequest r) t = (WRecv, turn (λ _, rep) t, evs)
         ∧ last evs = Some (EvDone w r)
         ∧ finished evs = [r]
         ∧ Forall (λ ev, actor ev = w) evs.
Proof.
  unfold turn, serve. simpl.
  destruct (Request t) as [req t1]. simpl.
  destruct rep as [resp|e]; simpl.
  - destruct (Decode (Body resp) (Data t1)) as [d [e|]]; simpl;
      eexists; (split; [reflexivity|]); repeat split;
      repeat constructor.
  - eexists; (split; [reflexivity|]); repeat split; repeat constructor.
Qed.

Lemma drive_fetch_ok (w : nat) (r : ptr) (resp : Response) (t t1 : T)
    (req : option HttpRequest) (d : D) (oe : error) :
  Request t = (req, t1) →
  Decode (Body resp) (Data t1) = (d, oe) →
  drive 6 w (inl resp) (WRequest r) t =
  (WRecv, turn (λ _, inl resp) t, turn_calls w r oe).
Proof.
  intros Hreq Hdec. unfold turn, serve, turn_calls. simpl.
  rewrite Hreq. simpl. rewrite Hdec. by destruct oe.
Qed.

Lemma drive_fetch_error (w : nat) (r : ptr) (e : goerror) (t t1 : T)
    (req : option HttpRequest) :
  Request t = (req, t1) →
  drive 6 w (inr e) (WRequest r) t =
  (WRecv, turn (λ _, inr e) t,
   [EvRequest w r; EvFetch w r; EvSetErr w r (Some (Wrapped e msg_http));
    EvDone w r]).
Proof.
  intros Hreq. unfold turn, serve. simpl. by rewrite Hreq.
Qed.

End WorkerFacts.

(** ** Bookkeeping of the log and of the worker slots *)

Lemma indicator_true (P : Prop) `{!Decision P} : P → indicator P = 1.
Proof. unfold indicator. intros HP. by rewrite decide_True. Qed.

Lemma indicator_false (P : Prop) `{!Decision P} : ¬ P → indicator P = 0.
Proof. unfold indicator. intros HP. by rewrite decide_False. Qed.

Lemma indicator_iff (P Q : Prop) `{!Decision P} `{!Decision Q} :
  (P ↔ Q) → indicator P = indicator Q.
Proof. unfold indicator. intros HPQ. repeat case_decide; tauto. Qed.

Lemma occurrences_cons (r x : ptr) (l : list ptr) :
  occurrences r (x :: l) = indicator (x = r) + occurrences r l.
Proof.
  unfold occurrences, indicator. rewrite filter_cons.
  by destruct (decide (x = r)).
Qed.

Lemma occurrences_nil (r : ptr) : occurrences r [] = 0.
Proof. done. Qed.

Lemma occurrences_app (r : ptr) (l k : list ptr) :
  occurrences r (l ++ k) = occurrences r l + occurrences r k.
Proof. unfold occurrences. by rewrite filter_app, length_app. Qed.

Lemma occurrences_rev (r : ptr) (l : list ptr) :
  occurrences r (rev l) = occurrences r l.
Proof.
  induction l as [|x l IH]; [done|].
  simpl. rewrite occurrences_app, IH, !occurrences_cons, occurrences_nil.
  lia.
Qed.

Lemma alive_insert_same (ws : list wstate) (w : nat) (pc pc' : wstate) :
  ws !! w = Some pc → pc ≠ WExit → pc' ≠ WExit →
  alive (<[w:=pc']> ws) = alive ws.
Proof.
  intros Hw Hpc Hpc'. unfold alive.
  pose proof (filter_length_insert (λ x, x ≠ WExit) ws w pc pc' Hw) as Hc.
  simpl in Hc. rewrite !indicator_true in Hc by done. lia.
Qed.

Lemma alive_insert_exit (ws : list wstate) (w : nat) (pc : wstate) :
  ws !! w = Some pc → pc ≠ WExit →
  alive (<[w:=WExit]> ws) + 1 = alive ws.
Proof.
  intros Hw Hpc. unfold alive.
  pose proof (filter_length_insert (λ x, x ≠ WExit) ws w pc WExit Hw) as Hc.
  simpl in Hc. rewrite indicator_true in Hc by done.
  rewrite indicator_false in Hc by (intros Hx; by apply Hx). lia.
Qed.

Lemma holders_insert (r : ptr) (ws : list wstate) (w : nat) (pc pc' : wstate) :
  ws !! w = Some pc →
  holders r (<[w:=pc']> ws) + indicator (holding pc = Some r) =
  holders r ws + indicator (holding pc' = Some r).
Proof.
  intros Hw. unfold holders.
  exact (filter_length_insert (λ x, holding x = Some r) ws w pc pc' Hw).
Qed.

Lemma busy_insert (ws : list wstate) (w : nat) (pc pc' : wstate) :
  ws !! w = Some pc →
  busy (<[w:=pc']> ws) + indicator (is_Some (holding pc)) =
  busy ws + indicator (is_Some (holding pc')).
Proof.
  intros Hw. unfold busy.
  exact (filter_length_insert (λ x, is_Some (holding x)) ws w pc pc' Hw).
Qed.

Lemma taken_cons (ev : event) (evs : list event) :
  taken (ev :: evs) = taken [ev] ++ taken evs.
Proof. by destruct ev. Qed.

Lemma finished_cons (ev : event) (evs : list event) :
  finished (ev :: evs) = finished [ev] ++ finished evs.
Proof. by destruct ev. Qed.

Lemma protocol_cons (w : nat) (ev : event) (evs : list event) :
  protocol w (ev :: evs) = protocol w evs ≫= λ ph, observe w ph ev.
Proof. done. Qed.

Lemma protocol_other (w : nat) (ev : event) (evs : list event) (ph : phase) :
  actor ev ≠ w → protocol w evs = Some ph → protocol w (ev :: evs) = Some ph.
Proof.
  intros Hne Hp. rewrite protocol_cons, Hp. simpl.
  unfold observe. by rewrite bool_decide_eq_false_2.
Qed.

(** The protocol part of the invariant when worker [w] moves from [pc] to
    [pc'] and logs [ev]. *)
Lemma protocol_move (ws : list wstate) (evs : list event) (w : nat)
    (pc pc' : wstate) (ev : event) :
  (∀ w' pc0, ws !! w' = Some pc0 → protocol w' evs = Some (phase_of pc0)) →
  (∀ w', length ws ≤ w' → protocol w' evs = Some Idle) →
  ws !! w = Some pc →
  actor ev = w →
  observe w (phase_of pc) ev = Some (phase_of pc') →
  (∀ w' pc0, <[w:=pc']> ws !! w' = Some pc0 →
             protocol w' (ev :: evs) = Some (phase_of pc0))
  ∧ (∀ w', length (<[w:=pc']> ws) ≤ w' →
           protocol w' (ev :: evs) = Some Idle).
Proof.
  intros Hproto Hquiet Hw Hact Hobs.
  pose proof (lookup_lt_Some _ _ _ Hw) as Hlt. split.
  - intros w' pc0 Hw'. destruct (decide (w' = w)) as [->|Hne].
    + rewrite list_lookup_insert_eq in Hw' by done. injection Hw' as <-.
      rewrite protocol_cons, (Hproto _ _ Hw). done.
    + rewrite list_lookup_insert_ne in Hw' by done.
      apply protocol_other; [congruence|]. by apply Hproto.
  - intros w'. rewrite length_insert. intros Hge.
    apply protocol_other; [lia|]. by apply Hquiet.
Qed.

(** ** The invariant holds in every state a schedule can reach *)

Lemma to_int_small (n : Z) : (0 ≤ n < 2 ^ 63)%Z → to_int n = n.
Proof.
  intros Hn. unfold to_int. rewrite Z.mod_small by lia.
  destruct (Z.ltb_spec n (2 ^ 63)); lia.
Qed.

Lemma to_int_large (n : Z) :
  (2 ^ 63 ≤ n < 2 ^ 64)%Z → to_int n = (n - 2 ^ 64)%Z.
Proof.
  intros Hn. unfold to_int. rewrite Z.mod_small by lia.
  destruct (Z.ltb_spec n (2 ^ 63)); lia.
Qed.

Section PoolFacts.
Context {D T : Type} `{!JSONRequest D T} `{!Decoder D}.

Lemma step_crashed (l : label) (s : sys T) :
  crashed s = true → step l s = None.
Proof. unfold step. by intros ->. Qed.

Lemma NewPool_small (n : Z) (h : ptr → T) :
  (0 ≤ n < 2 ^ 63)%Z →
  NewPool n h =
  mkSys (CDo []) false n (replicate (Z.to_nat n) WRecv) h [] false.
Proof.
  intros Hn. unfold NewPool. rewrite to_int_small by done.
  destruct (Z.ltb_spec n 0); [lia|done].
Qed.

Lemma NewPool_large (n : Z) (h : ptr → T) :
  (2 ^ 63 ≤ n < 2 ^ 64)%Z →
  NewPool n h = mkSys (CDo []) false 0 [] h [] true.
Proof.
  intros Hn. unfold NewPool. rewrite to_int_large by done.
  destruct (Z.ltb_spec (n - 2 ^ 64) 0); [done|lia].
Qed.

Lemma inv_init (n : Z) (rqs : list ptr) (h : ptr → T) :
  (0 ≤ n < 2 ^ 63)%Z →
  inv (Z.to_nat n) rqs (batch rqs (NewPool n h)).
Proof.
  intros Hn. rewrite NewPool_small by done. unfold batch. simpl.
  assert (alive (replicate (Z.to_nat n) WRecv) = Z.to_nat n) as Halive.
  { unfold alive. rewrite filter_length_replicate.
    rewrite indicator_true by done. lia. }
  constructor; simpl.
  - done.
  - by rewrite length_replicate.
  - rewrite Halive. lia.
  - done.
  - done.
  - done.
  - done.
  - intros r. unfold holders. rewrite filter_length_replicate.
    rewrite indicator_false by done. unfold occurrences. simpl. lia.
  - intros w pc Hw. apply lookup_replicate in Hw as [-> _]. done.
  - done.
  - unfold busy. rewrite filter_length_replicate.
    rewrite indicator_false by (by intros [? ?]). lia.
Qed.

Lemma inv_step (N : nat) (rqs : list ptr) (l : label) (s s' : sys T) :
  inv N rqs s → step l s = Some s' → inv N rqs s'.
Proof.
  intros [Hsound Hsize Hwg Hopen Hcaller Hret Horder Hcount Hproto Hquiet
            Hflight].
  unfold step. rewrite Hsound. intros Hstep.
  destruct l as [w| | |w rep].
  - (* the caller hands a task to worker w *)
    destruct (caller s) as [[|r todo]| |] eqn:Hc; try done.
    destruct (workers s !! w) as [pc|] eqn:Hw; try done.
    destruct pc; try done.
    rewrite Hcaller in Hstep. injection Hstep as <-.
    destruct (protocol_move (workers s) (log s) w WRecv (WRequest r)
                (EvTake w r) Hproto Hquiet Hw) as [Hp Hq]; [done| |].
    { simpl. unfold observe. simpl. by rewrite bool_decide_eq_true_2. }
    assert (alive (<[w:=WRequest r]> (workers s)) = alive (workers s))
      as Ha by (by apply (alive_insert_same _ _ WRecv)).
    constructor; cbn [caller closed wg workers heap log crashed todo_of].
    + done.
    + by rewrite length_insert.
    + by rewrite Ha.
    + intros Hcl. rewrite Ha. by apply Hopen.
    + done.
    + done.
    + change (taken (EvTake w r :: log s)) with (r :: taken (log s)).
      simpl in *. rewrite <- Horder. by rewrite <- app_assoc.
    + intros r0.
      change (taken (EvTake w r :: log s)) with (r :: taken (log s)).
      change (finished (EvTake w r :: log s)) with (finished (log s)).
      rewrite occurrences_cons.
      pose proof (holders_insert r0 _ _ _ (WRequest r) Hw) as Hh.
      simpl in Hh. rewrite indicator_false in Hh by done.
      rewrite (indicator_iff (Some r = Some r0) (r = r0)) in Hh
        by (split; congruence).
      specialize (Hcount r0). lia.
    + done.
    + done.
    + change (taken (EvTake w r :: log s)) with (r :: taken (log s)).
      change (finished (EvTake w r :: log s)) with (finished (log s)).
      pose proof (busy_insert _ _ _ (WRequest r) Hw) as Hb.
      rewrite indicator_false in Hb by (by intros [? ?]).
      rewrite indicator_true in Hb by (by eexists).
      simpl. lia.
  - (* close(p.in) *)
    destruct (caller s) as [[|r todo]| |] eqn:Hc; try done.
    injection Hstep as <-.
    constructor; cbn [caller closed wg workers heap log crashed todo_of]; try done.
  - (* wg.Wait() returns *)
    destruct (caller s) as [todo| |] eqn:Hc; try done.
    destruct (Z.eqb_spec (wg s) 0) as [Hz|]; try done.
    injection Hstep as <-.
    constructor; cbn [caller closed wg workers heap log crashed todo_of]; try done.
  - (* worker w moves *)
    destruct (workers s !! w) as [pc|] eqn:Hw; try done.
    destruct (holding pc) as [r|] eqn:Hr.
    + (* a call on the task it holds *)
      destruct (call w rep pc (heap s r)) as [[[pc' t'] ev]|] eqn:Hcall;
        [|done].
      injection Hstep as <-.
      destruct (call_facts _ _ _ _ _ _ _ Hcall)
        as (Hact & Hpc & Hpc' & _ & Hobs & Htk).
      destruct (protocol_move (workers s) (log s) w pc pc' ev
                  Hproto Hquiet Hw Hact Hobs) as [Hp Hq].
      pose proof (alive_insert_same _ _ _ pc' Hw Hpc Hpc') as Ha.
      assert (taken (ev :: log s) = taken (log s)) as Htk'.
      { by rewrite taken_cons, Htk. }
      constructor; cbn [caller closed wg workers heap log crashed todo_of].
      * done.
      * by rewrite length_insert.
      * by rewrite Ha.
      * intros Hcl. rewrite Ha. by apply Hopen.
      * done.
      * done.
      * by rewrite Htk'.
      * intros r0. rewrite Htk'.
        pose proof (holders_insert r0 _ _ _ pc' Hw) as Hh.
        specialize (Hcount r0).
        rewrite finished_cons, occurrences_app.
        destruct (call_keeps _ _ _ _ _ _ _ _ Hcall Hr)
          as [[Hr' Hf]|(-> & -> & ->)].
        -- rewrite Hf, occurrences_nil. rewrite Hr, Hr' in Hh. lia.
        -- simpl in Hh. rewrite (indicator_false (None = _)) in Hh by done.
           change (finished [EvDone w r]) with [r].
           rewrite occurrences_cons, occurrences_nil.
           rewrite (indicator_iff (Some r = Some r0) (r = r0)) in Hh
             by (split; congruence).
           lia.
      * done.
      * done.
      * rewrite Htk', finished_cons, length_app.
        pose proof (busy_insert _ _ _ pc' Hw) as Hb.
        rewrite (indicator_true (is_Some (holding pc))) in Hb
          by (by rewrite Hr).
        destruct (call_keeps _ _ _ _ _ _ _ _ Hcall Hr)
          as [[Hr' Hf]|(-> & -> & ->)].
        -- rewrite Hf. rewrite indicator_true in Hb by (by rewrite Hr').
           simpl. lia.
        -- rewrite indicator_false in Hb by (by intros [? ?]).
           simpl. lia.
    + (* it leaves the loop: the channel is closed *)
      destruct pc; try done.
      destruct (closed s) eqn:Hcl; try done.
      injection Hstep as <-.
      destruct (protocol_move (workers s) (log s) w WRecv WExit
                  (EvExit w) Hproto Hquiet Hw) as [Hp Hq]; [done| |].
      { simpl. unfold observe. simpl. by rewrite bool_decide_eq_true_2. }
      assert (alive (<[w:=WExit]> (workers s)) + 1 = alive (workers s))
        as Ha by (by apply (alive_insert_exit _ _ WRecv)).
      constructor; cbn [caller closed wg workers heap log crashed todo_of].
      * destruct (Z.ltb_spec (wg s - 1) 0); [|done]. lia.
      * by rewrite length_insert.
      * lia.
      * done.
      * done.
      * intros Hc. specialize (Hret Hc). lia.
      * done.
      * intros r0.
        change (taken (EvExit w :: log s)) with (taken (log s)).
        change (finished (EvExit w :: log s)) with (finished (log s)).
        pose proof (holders_insert r0 _ _ _ WExit Hw) as Hh.
        simpl in Hh. specialize (Hcount r0). lia.
      * done.
      * done.
      * change (taken (EvExit w :: log s)) with (taken (log s)).
        change (finished (EvExit w :: log s)) with (finished (log s)).
        pose proof (busy_insert _ _ _ WExit Hw) as Hb.
        rewrite !indicator_false in Hb by (by intros [? ?]). lia.
Qed.

Lemma inv_run (N : nat) (rqs : list ptr) (ls : list label) (s s' : sys T) :
  inv N rqs s → run ls s = Some s' → inv N rqs s'.
Proof.
  revert s. induction ls as [|l ls IH]; intros s Hinv Hrun; simpl in Hrun.
  - by injection Hrun as <-.
  - destruct (step l s) as [s1|] eqn:Hstep; [|done].
    eapply IH; [|done]. by eapply inv_step.
Qed.


(** Every step makes the measure smaller: no schedule is infinite. *)
Lemma step_measure (N : nat) (rqs : list ptr) (l : label) (s s' : sys T) :
  inv N rqs s → step l s = Some s' → measure s' < measure s.
Proof.
  intros Hinv. unfold step, measure. rewrite (inv_sound _ _ _ Hinv).
  intros Hstep. destruct l as [w| | |w rep].
  - destruct (caller s) as [[|r todo]| |] eqn:Hc; try done.
    destruct (workers s !! w) as [pc|] eqn:Hw; try done.
    destruct pc; try done.
    pose proof (inv_caller _ _ _ Hinv) as Hcl. rewrite Hc in Hcl.
    rewrite Hcl in Hstep. injection Hstep as <-. simpl.
    pose proof (sum_wrank_insert _ _ _ (WRequest r) Hw) as Hs.
    simpl in Hs. lia.
  - destruct (caller s) as [[|r todo]| |] eqn:Hc; try done.
    injection Hstep as <-. simpl. lia.
  - destruct (caller s) as [todo| |] eqn:Hc; try done.
    destruct (wg s =? 0)%Z; try done.
    injection Hstep as <-. simpl. lia.
  - destruct (workers s !! w) as [pc|] eqn:Hw; try done.
    destruct (holding pc) as [r|] eqn:Hr.
    + destruct (call w rep pc (heap s r)) as [[[pc' t'] ev]|] eqn:Hcall;
        [|done].
      injection Hstep as <-. simpl.
      destruct (call_facts _ _ _ _ _ _ _ Hcall) as (_ & _ & _ & Hlt & _).
      pose proof (sum_wrank_insert _ _ _ pc' Hw) as Hs. lia.
    + destruct pc; try done. destruct (closed s); try done.
      injection Hstep as <-. simpl.
      pose proof (sum_wrank_insert _ _ _ WExit Hw) as Hs.
      simpl in Hs. lia.
Qed.

Lemma run_measure (N : nat) (rqs : list ptr) (ls : list label)
    (s s' : sys T) :
  inv N rqs s → run ls s = Some s' → length ls + measure s' ≤ measure s.
Proof.
  revert s. induction ls as [|l ls IH]; intros s Hinv Hrun; simpl in Hrun.
  - injection Hrun as <-. simpl. lia.
  - destruct (step l s) as [s1|] eqn:Hstep; [|done].
    pose proof (step_measure _ _ _ _ _ Hinv Hstep).
    pose proof (IH s1 (inv_step _ _ _ _ _ Hinv Hstep) Hrun). simpl. lia.
Qed.

Lemma alive_pos_lookup (ws : list wstate) :
  0 < alive ws → ∃ w pc, ws !! w = Some pc ∧ pc ≠ WExit.
Proof.
  unfold alive. intros Hpos.
  destruct (filter (λ pc, pc ≠ WExit) ws) as [|pc l] eqn:Hf;
    [simpl in Hpos; lia|].
  assert (pc ∈ filter (λ pc, pc ≠ WExit) ws) as Hin
    by (rewrite Hf; apply list_elem_of_here).
  apply list_elem_of_filter in Hin as [Hne Hin].
  apply list_elem_of_lookup in Hin as [w Hw]. eauto.
Qed.

Lemma alive_zero_lookup (ws : list wstate) (w : nat) (pc : wstate) :
  alive ws = 0 → ws !! w = Some pc → pc = WExit.
Proof.
  unfold alive. intros Hz Hw.
  apply filter_length_none in Hz.
  rewrite Forall_lookup in Hz. specialize (Hz _ _ Hw).
  destruct (decide (pc = WExit)); [done|]. by destruct Hz.
Qed.

Lemma holding_cases (pc : wstate) :
  pc = WRecv ∨ pc = WExit ∨ ∃ r, holding pc = Some r.
Proof. destruct pc; simpl; eauto. Qed.

(** A worker that takes part in the pool and has not left can always
    move, unless it waits at an open channel. *)
Lemma worker_moves (s : sys T) (w : nat) (pc : wstate) (rep : reply) :
  crashed s = false →
  workers s !! w = Some pc → pc ≠ WExit →
  (pc = WRecv → closed s = true) →
  is_Some (step (LWork w rep) s).
Proof.
  intros Hsound Hw Hne Hrecv. unfold step. rewrite Hsound, Hw.
  destruct (holding_cases pc) as [->|[->|[r Hr]]]; [|done|].
  - simpl. rewrite Hrecv by done. eauto.
  - rewrite Hr.
    destruct (call_enabled w rep pc (heap s r) r Hr) as [[[pc' t'] ev] ->].
    eauto.
Qed.

(** No deadlock: as long as the caller is not back from [Stop], some
    goroutine can move, provided there is a worker to take the tasks. *)
Lemma progress (N : nat) (rqs : list ptr) (s : sys T) :
  inv N rqs s → (rqs = [] ∨ 0 < N) → caller s ≠ CReturned →
  ∃ l s', step l s = Some s'.
Proof.
  intros Hinv Hsize Hc.
  pose proof (inv_sound _ _ _ Hinv) as Hsound.
  pose proof (inv_caller _ _ _ Hinv) as Hcl.
  destruct (caller s) as [[|r todo]| |] eqn:Hcaller; [| | |done].
  - exists LClose. unfold step. rewrite Hsound, Hcaller. eauto.
  - assert (0 < N) as HN.
    { destruct Hsize as [->|]; [|done].
      pose proof (inv_order _ _ _ Hinv) as Ho. rewrite Hcaller in Ho.
      simpl in Ho. by destruct (rev (taken (log s))). }
    pose proof (inv_open _ _ _ Hinv Hcl) as Ha.
    destruct (alive_pos_lookup (workers s)) as (w & pc & Hw & Hne); [lia|].
    destruct (decide (pc = WRecv)) as [->|Hrecv].
    + exists (LSend w). unfold step. rewrite Hsound, Hcaller, Hw, Hcl.
      eauto.
    + destruct (worker_moves s w pc (inr (Failure "")) Hsound Hw Hne)
        as [s' Hs']; [done|]. eauto.
  - destruct (decide (wg s = 0%Z)) as [Hz|Hnz].
    + exists LWait. unfold step. rewrite Hsound, Hcaller, Hz. eauto.
    + pose proof (inv_wg _ _ _ Hinv) as Hwg.
      destruct (alive_pos_lookup (workers s)) as (w & pc & Hw & Hne);
        [lia|].
      destruct (worker_moves s w pc (inr (Failure "")) Hsound Hw Hne)
        as [s' Hs']; [done|]. eauto.
Qed.

(** Once the caller is back from [Stop] nothing moves any more. *)
Lemma returned_final (N : nat) (rqs : list ptr) (s : sys T) (l : label) :
  inv N rqs s → caller s = CReturned → step l s = None.
Proof.
  intros Hinv Hc.
  pose proof (inv_ret _ _ _ Hinv Hc) as Hz.
  pose proof (inv_wg _ _ _ Hinv) as Hwg.
  unfold step. rewrite (inv_sound _ _ _ Hinv), Hc.
  destruct l as [w| | |w rep]; try done.
  destruct (workers s !! w) as [pc|] eqn:Hw; [|done].
  assert (alive (workers s) = 0) as Ha by lia.
  by rewrite (alive_zero_lookup _ _ _ Ha Hw).
Qed.

End PoolFacts.

(** ** Schedules of a pool made by [NewPool] *)

Section Reach.
Context {D T : Type} `{!JSONRequest D T} `{!Decoder D}.

Lemma run_crashed (ls : list label) (s s' : sys T) :
  crashed s = true → run ls s = Some s' → ls = [] ∧ s' = s.
Proof.
  intros Hc. destruct ls as [|l ls]; simpl.
  - intros [= <-]. done.
  - by rewrite step_crashed.
Qed.

Lemma reach_NewPool (n : Z) (rqs : list ptr) (h : ptr → T)
    (ls : list label) (s : sys T) :
  (0 ≤ n < 2 ^ 64)%Z →
  run ls (batch rqs (NewPool n h)) = Some s →
  inv (Z.to_nat n) rqs s
  ∨ (ls = [] ∧ crashed s = true ∧ workers s = [] ∧ caller s = CDo rqs
     ∧ log s = []).
Proof.
  intros Hn Hrun. destruct (Z.lt_ge_cases n (2 ^ 63)) as [Hlt|Hge].
  - left. eapply inv_run; [|done]. apply inv_init. lia.
  - right. rewrite NewPool_large in Hrun by lia.
    apply run_crashed in Hrun as [-> ->]; done.
Qed.

Lemma protocol_counts (w : nat) (r : ptr) (evs : list event) (ph : phase) :
  protocol w evs = Some ph →
  took w r evs = signalled w r evs + indicator (engaged ph = Some r).
Proof.
  revert ph. induction evs as [|ev evs IH]; intros ph.
  - intros [= <-]. done.
  - rewrite protocol_cons.
    destruct (protocol w evs) as [ph'|] eqn:Hp; [|done]. simpl.
    specialize (IH ph' eq_refl). unfold took, signalled in *.
    rewrite !filter_cons. unfold observe, same.
    intros Hobs.
    destruct ev, ph'; simpl in *;
      repeat case_bool_decide; simplify_eq;
      repeat case_decide; simplify_eq; simpl in *;
      unfold indicator in *; repeat case_decide; simplify_eq; lia.
Qed.

End Reach.

(** ** Completion *)

Section Completion.
Context {D T : Type} `{!JSONRequest D T} `{!Decoder D}.


End Completion.


(** ** Drain *)

Lemma holders_le_alive (r : ptr) (ws : list wstate) : holders r ws ≤ alive ws.
Proof.
  unfold holders, alive. apply filter_length_mono.
  intros pc Hpc ->. done.
Qed.

Lemma busy_le_alive (ws : list wstate) : busy ws ≤ alive ws.
Proof.
  unfold busy, alive. apply filter_length_mono.
  intros pc [r Hr] ->. done.
Qed.

Lemma fetching_le_busy (ws : list wstate) : fetching ws ≤ busy ws.
Proof.
  unfold fetching, busy. apply filter_length_mono.
  intros pc Hpc. by destruct pc.
Qed.

Lemma alive_le_length (ws : list wstate) : alive ws ≤ length ws.
Proof. apply filter_length_le. Qed.

Lemma occurrences_elem_of (r : ptr) (l : list ptr) :
  0 < occurrences r l ↔ r ∈ l.
Proof.
  unfold occurrences. split.
  - intros Hpos. destruct (filter (λ x, x = r) l) as [|x k] eqn:Hf;
      [simpl in Hpos; lia|].
    assert (x ∈ filter (λ x, x = r) l) as Hin
      by (rewrite Hf; apply list_elem_of_here).
    by apply list_elem_of_filter in Hin as [-> Hin].
  - intros Hin.
    assert (r ∈ filter (λ x, x = r) l) as Hin'
      by (by apply list_elem_of_filter).
    destruct (filter (λ x, x = r) l); [by apply not_elem_of_nil in Hin'|].
    simpl. lia.
Qed.

(** ** The store follows the log *)

Lemma holders_pos (r : ptr) (ws : list wstate) (w : nat) (pc : wstate) :
  ws !! w = Some pc → holding pc = Some r → 0 < holders r ws.
Proof.
  intros Hw Hr. unfold holders.
  assert (pc ∈ filter (λ x, holding x = Some r) ws) as Hin.
  { apply list_elem_of_filter. split; [done|].
    apply list_elem_of_lookup. eauto. }
  destruct (filter (λ x, holding x = Some r) ws);
    [by apply not_elem_of_nil in Hin|]. simpl. lia.
Qed.

Section StoreFacts.
Context {D T : Type} `{!JSONRequest D T} `{!Decoder D}.

Lemma held_submitted (N : nat) (rqs : list ptr) (s : sys T) (w : nat)
    (pc : wstate) (r : ptr) :
  inv N rqs s → workers s !! w = Some pc → holding pc = Some r → r ∈ rqs.
Proof.
  intros Hinv Hw Hr.
  pose proof (holders_pos r _ _ _ Hw Hr) as Hpos.
  pose proof (inv_count _ _ _ Hinv r) as Hcount.
  rewrite <- (inv_order _ _ _ Hinv). apply elem_of_app. left.
  apply occurrences_elem_of. rewrite occurrences_rev. lia.
Qed.

Lemma heap_frame_step (N : nat) (rqs : list ptr) (l : label) (s s' : sys T)
    (r : ptr) :
  inv N rqs s → step l s = Some s' → r ∉ rqs → heap s' r = heap s r.
Proof.
  intros Hinv Hstep Hr. revert Hstep.
  unfold step. rewrite (inv_sound _ _ _ Hinv).
  destruct l as [w| | |w rep].
  - destruct (caller s) as [[|r0 todo]| |]; try done.
    destruct (workers s !! w) as [[]|]; try done.
    destruct (closed s); by intros [= <-].
  - destruct (caller s) as [[|r0 todo]| |]; try done. by intros [= <-].
  - destruct (caller s) as [todo| |]; try done.
    destruct (wg s =? 0)%Z; try done. by intros [= <-].
  - destruct (workers s !! w) as [pc|] eqn:Hw; try done.
    destruct (holding pc) as [r0|] eqn:Hr0.
    + destruct (call w rep pc (heap s r0)) as [[[pc' t'] ev]|]; [|done].
      intros [= <-]. simpl. apply fn_lookup_insert_ne.
      intros ->. apply Hr. by eapply held_submitted.
    + destruct pc; try done. destruct (closed s); try done.
      by intros [= <-].
Qed.

Lemma heap_frame_run (N : nat) (rqs : list ptr) (ls : list label)
    (s s' : sys T) (r : ptr) :
  inv N rqs s → run ls s = Some s' → r ∉ rqs → heap s' r = heap s r.
Proof.
  revert s. induction ls as [|l ls IH]; intros s Hinv Hrun Hr;
    simpl in Hrun.
  - by injection Hrun as <-.
  - destruct (step l s) as [s1|] eqn:Hstep; [|done].
    rewrite (IH s1); [by eapply heap_frame_step| |done|done].
    by eapply inv_step.
Qed.

Lemma call_count (count : T → nat) (w : nat) (rep : reply)
    (pc pc' : wstate) (t t' : T) (ev : event) :
  counts_Done count →
  call w rep pc t = Some (pc', t', ev) →
  count t' = count t + length (finished [ev]).
Proof.
  intros (HDone & HRequest & HStore & HSetErr) Hc.
  call_cases Hc pc; simpl; rewrite ?HDone, ?HStore, ?HSetErr; try lia.
  match goal with H : Request t = _ |- _ =>
    pose proof (HRequest t) as Hr; rewrite H in Hr; simpl in Hr end.
  lia.
Qed.

Lemma call_finished (w : nat) (rep : reply) (pc pc' : wstate) (t t' : T)
    (ev : event) (r0 r : ptr) :
  call w rep pc t = Some (pc', t', ev) →
  holding pc = Some r0 →
  occurrences r (finished [ev]) =
  if decide (r = r0) then length (finished [ev]) else 0.
Proof.
  intros Hc Hr0.
  destruct (call_keeps _ _ _ _ _ _ _ _ Hc Hr0) as [[_ ->]|(_ & _ & ->)].
  - by destruct (decide (r = r0)).
  - change (finished [EvDone w r0]) with [r0].
    rewrite occurrences_cons, occurrences_nil. unfold indicator.
    destruct (decide (r = r0)) as [->|Hne].
    + rewrite decide_True by done. simpl. lia.
    + rewrite decide_False by done. lia.
Qed.

(** Every [Done] in the log is a [Done] on the object, and the other way
    round. *)
Lemma count_step (count : T → nat) (r : ptr) (l : label) (s s' : sys T) :
  counts_Done count →
  step l s = Some s' →
  count (heap s' r) + occurrences r (finished (log s)) =
  count (heap s r) + occurrences r (finished (log s')).
Proof.
  intros Hcount. unfold step. destruct (crashed s); [done|].
  destruct l as [w| | |w rep].
  - destruct (caller s) as [[|r0 todo]| |]; try done.
    destruct (workers s !! w) as [[]|]; try done.
    destruct (closed s); by intros [= <-].
  - destruct (caller s) as [[|r0 todo]| |]; try done. by intros [= <-].
  - destruct (caller s) as [todo| |]; try done.
    destruct (wg s =? 0)%Z; try done. by intros [= <-].
  - destruct (workers s !! w) as [pc|] eqn:Hw; try done.
    destruct (holding pc) as [r0|] eqn:Hr0.
    + destruct (call w rep pc (heap s r0)) as [[[pc' t'] ev]|] eqn:Hcall;
        [|done].
      intros [= <-]. cbn [heap log].
      rewrite finished_cons, occurrences_app.
      rewrite (call_finished _ _ _ _ _ _ _ r0 r Hcall Hr0).
      pose proof (call_count count _ _ _ _ _ _ _ Hcount Hcall) as Hn.
      destruct (decide (r = r0)) as [->|Hne].
      * rewrite fn_lookup_insert. lia.
      * rewrite fn_lookup_insert_ne by done. lia.
    + destruct pc; try done. destruct (closed s); try done.
      by intros [= <-].
Qed.

Lemma count_run (count : T → nat) (r : ptr) (ls : list label) (s s' : sys T) :
  counts_Done count →
  run ls s = Some s' →
  count (heap s' r) + occurrences r (finished (log s)) =
  count (heap s r) + occurrences r (finished (log s')).
Proof.
  intros Hcount. revert s.
  induction ls as [|l ls IH]; intros s Hrun; simpl in Hrun.
  - by injection Hrun as <-.
  - destruct (step l s) as [s1|] eqn:Hstep; [|done].
    pose proof (count_step count r _ _ _ Hcount Hstep).
    pose proof (IH s1 Hrun). lia.
Qed.

(** *** A turn in the middle *)

Lemma call_rep_irrelevant (w : nat) (rep rep' : reply) (pc : wstate) (t : T) :
  mid_fetch pc = false → call w rep pc t = call w rep' pc t.
Proof. by destruct pc. Qed.

Lemma drive_S (w : nat) (rep : reply) (k : nat) (pc : wstate) (t : T) :
  drive (S k) w rep pc t =
  match call w rep pc t with
  | None => (pc, t, [])
  | Some (pc', t', ev) =>
      let '(pc'', t'', evs) := drive k w rep pc' t' in (pc'', t'', ev :: evs)
  end.
Proof. done. Qed.

Lemma drive_snoc (w : nat) (rep : reply) (k : nat) (pc0 pc pc' : wstate)
    (t0 t t' : T) (evs : list event) (ev : event) :
  drive k w rep pc0 t0 = (pc, t, evs) →
  call w rep pc t = Some (pc', t', ev) →
  drive (S k) w rep pc0 t0 = (pc', t', evs ++ [ev]).
Proof.
  revert pc0 t0 evs. induction k as [|k IH]; intros pc0 t0 evs Hd Hc.
  - simpl in Hd. injection Hd as -> -> <-. simpl. by rewrite Hc.
  - rewrite drive_S in Hd. rewrite (drive_S _ _ (S k)).
    destruct (call w rep pc0 t0) as [[[pc1 t1] ev1]|] eqn:Hc0.
    + destruct (drive k w rep pc1 t1) as [[pc2 t2] evs2] eqn:Hd1.
      injection Hd as -> -> <-.
      by rewrite (IH _ _ _ Hd1 Hc).
    + injection Hd as -> -> <-. by rewrite Hc0 in Hc.
Qed.

Lemma drive_rank (w : nat) (rep : reply) (k : nat) (pc0 pc : wstate)
    (t0 t : T) (evs : list event) :
  drive k w rep pc0 t0 = (pc, t, evs) → wrank pc ≤ wrank pc0.
Proof.
  revert pc0 t0 evs. induction k as [|k IH]; intros pc0 t0 evs Hd.
  - simpl in Hd. by injection Hd as -> -> <-.
  - rewrite drive_S in Hd.
    destruct (call w rep pc0 t0) as [[[pc1 t1] ev1]|] eqn:Hc0.
    + destruct (drive k w rep pc1 t1) as [[pc2 t2] evs2] eqn:Hd1.
      injection Hd as -> -> <-.
      destruct (call_facts _ _ _ _ _ _ _ Hc0) as (_ & _ & _ & Hlt & _).
      pose proof (IH _ _ _ Hd1). lia.
    + by injection Hd as -> -> <-.
Qed.

Lemma drive_stable (w : nat) (rep : reply) (k j : nat) (pc0 pc : wstate)
    (t0 t : T) (evs : list event) :
  drive k w rep pc0 t0 = (pc, t, evs) →
  call w rep pc t = None →
  drive (k + j) w rep pc0 t0 = (pc, t, evs).
Proof.
  revert pc0 t0 evs. induction k as [|k IH]; intros pc0 t0 evs Hd Hc.
  - simpl in Hd. injection Hd as -> -> <-. simpl.
    destruct j as [|j]; [done|]. simpl. by rewrite Hc.
  - rewrite drive_S in Hd. cbn [Nat.add]. rewrite drive_S.
    destruct (call w rep pc0 t0) as [[[pc1 t1] ev1]|] eqn:Hc0; [|done].
    destruct (drive k w rep pc1 t1) as [[pc2 t2] evs2] eqn:Hd1.
    injection Hd as -> -> <-. by rewrite (IH _ _ _ Hd1 Hc).
Qed.

(** Up to the fetch a turn does not depend on what the transport is going
    to answer. *)
Lemma drive_to_fetch (w : nat) (rep rep' : reply) (k : nat) (r : ptr)
    (pc : wstate) (t0 t : T) (evs : list event) :
  drive k w rep (WRequest r) t0 = (pc, t, evs) →
  mid_fetch pc = true →
  drive k w rep' (WRequest r) t0 = (pc, t, evs).
Proof.
  intros Hd Hpc. destruct k as [|k].
  - simpl in Hd. injection Hd as <- _ _. done.
  - rewrite drive_S in Hd. rewrite drive_S. cbn [call] in Hd |- *.
    destruct (Request t0) as [req t1].
    destruct k as [|k]; [done|].
    destruct (drive (S k) w rep (WFetch r req) t1) as [[pc2 t2] evs2] eqn:Hd1.
    injection Hd as -> -> <-.
    rewrite drive_S in Hd1. cbn [call] in Hd1.
    destruct rep as [resp|e].
    + destruct (drive k w (inl resp) (WDecode r resp) t1)
        as [[pc3 t3] evs3] eqn:Hd2.
      injection Hd1 as -> -> <-.
      apply drive_rank in Hd2. destruct pc; try done. simpl in Hd2. lia.
    + destruct (drive k w (inr e) (WFetchErr r e) t1)
        as [[pc3 t3] evs3] eqn:Hd2.
      injection Hd1 as -> -> <-.
      apply drive_rank in Hd2. destruct pc; try done. simpl in Hd2. lia.
Qed.

Lemma in_turn_start (w : nat) (r : ptr) (t0 : T) :
  in_turn w r t0 (WRequest r) t0.
Proof. by exists 0, (inr (Failure "")), []. Qed.

Lemma in_turn_call (w : nat) (r : ptr) (t0 : T) (rep : reply)
    (pc pc' : wstate) (t t' : T) (ev : event) :
  in_turn w r t0 pc t →
  call w rep pc t = Some (pc', t', ev) →
  in_turn w r t0 pc' t'.
Proof.
  intros (k & rep0 & evs & Hd) Hc.
  destruct (mid_fetch pc) eqn:Hpc.
  - exists (S k), rep, (evs ++ [ev]).
    apply drive_snoc with pc t; [|done]. by apply drive_to_fetch with rep0.
  - exists (S k), rep0, (evs ++ [ev]).
    apply drive_snoc with pc t; [done|].
    by rewrite (call_rep_irrelevant w rep0 rep).
Qed.

Lemma in_turn_Done (w : nat) (r : ptr) (t0 t : T) :
  in_turn w r t0 (WDone r) t → ∃ rep, Done t = turn (λ _, rep) t0.
Proof.
  intros (k & rep & evs & Hd). exists rep.
  assert (drive (S k) w rep (WRequest r) t0
          = (WRecv, Done t, evs ++ [EvDone w r])) as Hk
    by (by apply drive_snoc with (WDone r) t).
  destruct (drive_turn w rep r t0) as (evs6 & H6 & _).
  destruct (Nat.le_ge_cases (S k) 6) as [Hle|Hge].
  - pose proof (drive_stable w rep (S k) (6 - S k) _ _ _ _ _ Hk eq_refl)
      as Hs.
    replace (S k + (6 - S k)) with 6 in Hs by lia.
    rewrite H6 in Hs. by injection Hs.
  - pose proof (drive_stable w rep 6 (S k - 6) _ _ _ _ _ H6 eq_refl) as Hs.
    replace (6 + (S k - 6)) with (S k) in Hs by lia.
    rewrite Hk in Hs. by injection Hs.
Qed.

(** *** A task that is sent once *)

Lemma taken_le_submitted (N : nat) (rqs : list ptr) (s : sys T) (r : ptr) :
  inv N rqs s → occurrences r (taken (log s)) ≤ occurrences r rqs.
Proof.
  intros Hinv. rewrite <- (inv_order _ _ _ Hinv).
  rewrite occurrences_app, occurrences_rev. lia.
Qed.

Lemma sole_holder (r : ptr) (ws : list wstate) (w w' : nat)
    (pc pc' : wstate) :
  holders r ws ≤ 1 →
  ws !! w = Some pc → holding pc = Some r →
  ws !! w' = Some pc' → holding pc' = Some r →
  w = w'.
Proof.
  intros Hle Hw Hr Hw' Hr'.
  destruct (decide (w = w')) as [|Hne]; [done|].
  pose proof (holders_insert r ws w pc WRecv Hw) as Hh.
  rewrite (indicator_true (holding pc = Some r)) in Hh by done.
  rewrite indicator_false in Hh by done.
  assert (<[w:=WRecv]> ws !! w' = Some pc') as Hw''
    by (by rewrite list_lookup_insert_ne).
  pose proof (holders_pos r _ _ _ Hw'' Hr'). lia.
Qed.

Lemma served_init (n : Z) (rqs : list ptr) (h : ptr → T) (r : ptr) :
  (0 ≤ n < 2 ^ 63)%Z → served r h (batch rqs (NewPool n h)).
Proof.
  intros Hn. rewrite NewPool_small by done. constructor; simpl.
  - done.
  - intros w pc Hw. apply lookup_replicate in Hw as [-> _]. done.
  - unfold occurrences. simpl. lia.
Qed.

Lemma served_step (N : nat) (rqs : list ptr) (h : ptr → T) (r : ptr)
    (l : label) (s s' : sys T) :
  inv N rqs s → occurrences r rqs = 1 →
  served r h s → step l s = Some s' → served r h s'.
Proof.
  intros Hinv Hone [Hbefore Hduring Hafter] Hstep.
  pose proof (inv_step _ _ _ _ _ Hinv Hstep) as Hinv'.
  pose proof (taken_le_submitted _ _ _ r Hinv) as Hle.
  pose proof (taken_le_submitted _ _ _ r Hinv') as Hle'.
  pose proof (inv_count _ _ _ Hinv r) as Hcount.
  revert Hstep Hle'. unfold step. rewrite (inv_sound _ _ _ Hinv).
  destruct l as [w| | |w rep].
  - (* the caller hands a task to worker w *)
    pose proof (inv_caller _ _ _ Hinv) as Hcl.
    destruct (caller s) as [[|r0 todo]| |]; try done.
    destruct (workers s !! w) as [pc|] eqn:Hw; try done.
    destruct pc; try done. rewrite Hcl. intros [= <-].
    cbn [heap log workers].
    change (taken (EvTake w r0 :: log s)) with (r0 :: taken (log s)).
    change (finished (EvTake w r0 :: log s)) with (finished (log s)).
    rewrite occurrences_cons. intros Hle'.
    constructor; cbn [heap log workers].
    + change (taken (EvTake w r0 :: log s)) with (r0 :: taken (log s)).
      rewrite occurrences_cons. intros Hz. apply Hbefore. lia.
    + intros w' pc Hw' Hr. destruct (decide (w' = w)) as [->|Hne].
      * rewrite list_lookup_insert_eq in Hw' by (by eapply lookup_lt_Some).
        injection Hw' as <-. simpl in Hr. injection Hr as ->.
        rewrite indicator_true in Hle' by done.
        rewrite Hbefore by lia. apply in_turn_start.
      * rewrite list_lookup_insert_ne in Hw' by done. by eapply Hduring.
    + done.
  - destruct (caller s) as [[|r0 todo]| |]; try done. intros [= <-] _.
    by constructor.
  - destruct (caller s) as [todo| |]; try done.
    destruct (wg s =? 0)%Z; try done. intros [= <-] _. by constructor.
  - destruct (workers s !! w) as [pc|] eqn:Hw; try done.
    destruct (holding pc) as [r0|] eqn:Hr0.
    + (* a call of worker w on the task r0 *)
      destruct (call w rep pc (heap s r0)) as [[[pc' t'] ev]|] eqn:Hcall;
        [|done].
      intros [= <-]. cbn [heap log workers].
      destruct (call_facts _ _ _ _ _ _ _ Hcall) as (_ & _ & _ & _ & _ & Htk).
      rewrite taken_cons, Htk. cbn [app]. intros _.
      pose proof (call_finished _ _ _ _ _ _ _ r0 r Hcall Hr0) as Hfin.
      pose proof (call_keeps _ _ _ _ _ _ _ _ Hcall Hr0) as Hkeeps.
      constructor; cbn [heap log workers].
      * rewrite taken_cons, Htk. cbn [app].
        intros Hz. destruct (decide (r = r0)) as [->|Hne].
        -- pose proof (holders_pos r0 _ _ _ Hw Hr0). lia.
        -- rewrite fn_lookup_insert_ne by done. by apply Hbefore.
      * intros w' pc'' Hw' Hr. destruct (decide (r = r0)) as [->|Hne].
        -- rewrite fn_lookup_insert.
           destruct (decide (w' = w)) as [->|Hnew].
           ++ rewrite list_lookup_insert_eq in Hw'
                by (by eapply lookup_lt_Some).
              injection Hw' as <-.
              eapply in_turn_call; [|exact Hcall]. by eapply Hduring.
           ++ rewrite list_lookup_insert_ne in Hw' by done.
              destruct Hnew. symmetry.
              apply (sole_holder r0 (workers s) w w' pc pc''); try done.
              lia.
        -- rewrite fn_lookup_insert_ne by done.
           destruct (decide (w' = w)) as [->|Hnew].
           ++ rewrite list_lookup_insert_eq in Hw'
                by (by eapply lookup_lt_Some).
              injection Hw' as <-.
              destruct Hkeeps as [[Hr' _]|(_ & -> & _)]; [|done].
              rewrite Hr' in Hr. by injection Hr as ->.
           ++ rewrite list_lookup_insert_ne in Hw' by done.
              by eapply Hduring.
      * rewrite finished_cons, occurrences_app, Hfin.
        destruct (decide (r = r0)) as [->|Hne].
        -- rewrite fn_lookup_insert. intros Hpos.
           destruct Hkeeps as [[_ Hf]|(-> & -> & ->)].
           ++ rewrite Hf in Hpos. simpl in Hpos.
              pose proof (holders_pos r0 _ _ _ Hw Hr0). lia.
           ++ simpl in Hcall. injection Hcall as <-.
              apply (in_turn_Done w r0). by eapply Hduring.
        -- rewrite fn_lookup_insert_ne by done. intros Hpos.
           apply Hafter. lia.
    + (* worker w leaves *)
      destruct pc; try done. destruct (closed s); try done.
      intros [= <-] _. constructor; cbn [heap log workers].
      * done.
      * intros w' pc Hw' Hr. destruct (decide (w' = w)) as [->|Hne].
        -- rewrite list_lookup_insert_eq in Hw'
             by (by eapply lookup_lt_Some).
           by injection Hw' as <-.
        -- rewrite list_lookup_insert_ne in Hw' by done. by eapply Hduring.
      * done.
Qed.

Lemma served_run (N : nat) (rqs : list ptr) (h : ptr → T) (r : ptr)
    (ls : list label) (s s' : sys T) :
  inv N rqs s → occurrences r rqs = 1 →
  served r h s → run ls s = Some s' → served r h s'.
Proof.
  intros Hinv Hone. revert s Hinv.
  induction ls as [|l ls IH]; intros s Hinv Hserved Hrun; simpl in Hrun.
  - by injection Hrun as <-.
  - destruct (step l s) as [s1|] eqn:Hstep; [|done].
    apply (IH s1); [by eapply inv_step| |done].
    by eapply served_step.
Qed.

End StoreFacts.

Section Drain.
Context {D T : Type} `{!JSONRequest D T} `{!Decoder D}.

(** What holds of a state in which the caller is back from [Stop]. *)
Lemma returned_drained (N : nat) (rqs : list ptr) (s : sys T) :
  inv N rqs s → caller s = CReturned →
  closed s = true ∧ wg s = 0%Z
  ∧ (∀ w pc, workers s !! w = Some pc → pc = WExit)
  ∧ rev (taken (log s)) = rqs
  ∧ (∀ r, occurrences r (finished (log s)) = occurrences r rqs)
  ∧ (∀ w, w < N → protocol w (log s) = Some Gone)
  ∧ (∀ l, step l s = None).
Proof.
  intros Hinv Hc.
  pose proof (inv_ret _ _ _ Hinv Hc) as Hz.
  pose proof (inv_wg _ _ _ Hinv) as Hwg.
  assert (alive (workers s) = 0) as Ha by lia.
  pose proof (inv_order _ _ _ Hinv) as Ho.
  rewrite Hc, app_nil_r in Ho.
  repeat split.
  - pose proof (inv_caller _ _ _ Hinv) as Hcl. by rewrite Hc in Hcl.
  - done.
  - intros w pc Hw. by apply (alive_zero_lookup _ _ _ Ha Hw).
  - done.
  - intros r. pose proof (inv_count _ _ _ Hinv r) as Hn.
    pose proof (holders_le_alive r (workers s)).
    rewrite <- Ho, occurrences_rev. lia.
  - intros w Hw. rewrite <- (inv_size _ _ _ Hinv) in Hw.
    apply lookup_lt_is_Some in Hw as [pc Hpc].
    rewrite (inv_proto _ _ _ Hinv w pc Hpc).
    by rewrite (alive_zero_lookup _ _ _ Ha Hpc).
  - intros l. by eapply returned_final.
Qed.

(** What the store holds when the caller is back from [Stop]. *)
Lemma returned_store (n : Z) (rqs : list ptr) (h : ptr → T)
    (ls : list label) (s : sys T) :
  (0 ≤ n < 2 ^ 63)%Z →
  run ls (batch rqs (NewPool n h)) = Some s →
  caller s = CReturned →
  (∀ r, r ∉ rqs → heap s r = h r)
  ∧ (∀ count, counts_Done count →
       ∀ r, count (heap s r) = count (h r) + occurrences r rqs)
  ∧ (∀ r, occurrences r rqs = 1 →
       ∃ rep, heap s r = turn (λ _, rep) (h r)).
Proof.
  intros Hn Hrun Hc.
  pose proof (inv_init n rqs h Hn) as Hinit.
  pose proof (inv_run _ _ _ _ _ Hinit Hrun) as Hinv.
  destruct (returned_drained _ _ _ Hinv Hc) as (_ & _ & _ & _ & Hfin & _).
  assert (heap (batch rqs (NewPool n h)) = h
          ∧ log (batch rqs (NewPool n h)) = []) as [Hheap Hlog]
    by (by rewrite NewPool_small by done).
  split; [|split].
  - intros r Hr.
    rewrite (heap_frame_run _ _ _ _ _ r Hinit Hrun Hr). by rewrite Hheap.
  - intros count Hcount r.
    pose proof (count_run count r _ _ _ Hcount Hrun) as Hn'.
    rewrite Hheap, Hlog, occurrences_nil, Hfin in Hn'. lia.
  - intros r Hone.
    pose proof (served_run _ _ _ r _ _ _ Hinit Hone
                  (served_init n rqs h r Hn) Hrun) as Hserved.
    apply (served_after _ _ _ Hserved). rewrite Hfin. lia.
Qed.

(** C3. Drain guarantee: when [Stop] has returned, the channel is closed,
    the barrier is at zero, every worker has left after its [wg.Done()],
    every task that was sent has been received, in the order sent, and has
    had [Done] called as often as it was sent, and nothing can touch a task
    any more, so what the caller reads is final.  The store agrees with
    the log: whatever counts the [Done] calls on a task object shows as
    many more as the task was sent; the object of a task that was sent
    once is the result of one whole turn of the worker (the function
    literal, then [Done]) on the object the caller handed in, so it holds
    that turn's error and decode state; and the object of a task that was
    not sent is as it was. *)
Theorem drain_guarantee (n : Z) (rqs : list ptr) (h : ptr → T)
    (ls : list label) (s : sys T) :
  (0 ≤ n < 2 ^ 64)%Z →
  run ls (batch rqs (NewPool n h)) = Some s →
  caller s = CReturned →
  closed s = true ∧ wg s = 0%Z
  ∧ length (workers s) = Z.to_nat n
  ∧ (∀ w pc, workers s !! w = Some pc → pc = WExit)
  ∧ rev (taken (log s)) = rqs
  ∧ (∀ r, r ∈ rqs → r ∈ finished (log s))
  ∧ (∀ r, occurrences r (finished (log s)) = occurrences r rqs)
  ∧ (∀ w, w < Z.to_nat n → protocol w (log s) = Some Gone)
  ∧ (∀ l, step l s = None)
  ∧ (∀ count, counts_Done count →
       ∀ r, count (heap s r) = count (h r) + occurrences r rqs)
  ∧ (∀ r, occurrences r rqs = 1 →
       ∃ rep, heap s r = turn (λ _, rep) (h r))
  ∧ (∀ r, r ∉ rqs → heap s r = h r).
Proof.
  intros Hn Hrun Hc.
  destruct (reach_NewPool n rqs h ls s Hn Hrun)
    as [Hinv|(_ & _ & _ & Hc' & _)]; [|by rewrite Hc in Hc'].
  assert (0 ≤ n < 2 ^ 63)%Z as Hn'.
  { destruct (Z.lt_ge_cases n (2 ^ 63)) as [Hlt|Hge]; [lia|].
    rewrite NewPool_large in Hrun by lia.
    apply run_crashed in Hrun as [_ ->]; [|done]. done. }
  destruct (returned_drained _ _ _ Hinv Hc)
    as (H1 & H2 & H3 & H4 & H5 & H6 & H7).
  destruct (returned_store n rqs h ls s Hn' Hrun Hc) as (S1 & S2 & S3).
  split; [done|]. split; [done|].
  split; [apply (inv_size _ _ _ Hinv)|].
  split; [done|]. split; [done|].
  split.
  { intros r Hr. apply occurrences_elem_of. rewrite H5.
    by apply occurrences_elem_of. }
  split; [done|]. split; [done|]. split; [done|].
  split; [done|]. split; [done|]. done.
Qed.

End Drain.

Lemma signals_counts_Done {D : Type} `{!Requester} :
  counts_Done (T := Job D) signals.
Proof.
  repeat split; try done.
  intros j. simpl. unfold Job_Request. by destruct (Basic.Request (basic j)).
Qed.

Lemma drain_guarantee_witness :
  (0 ≤ 1 < 2 ^ 64)%Z
  ∧ ∃ s, run Sample.one_task (batch [0] (NewPool 1 Sample.store)) = Some s
         ∧ caller s = CReturned
         ∧ signals (heap s 0) = signals (Sample.store 0) + occurrences 0 [0]
         ∧ ∃ rep, heap s 0 = turn (λ _, rep) (Sample.store 0).
Proof.
  split; [lia|].
  destruct (run Sample.one_task (batch [0] (NewPool 1 Sample.store)))
    as [s|] eqn:Hrun; [|by vm_compute in Hrun].
  assert (caller s = CReturned) as Hc.
  { assert (caller <$> run Sample.one_task
                         (batch [0] (NewPool 1 Sample.store))
            = Some CReturned) as Hc by (by vm_compute).
    rewrite Hrun in Hc. by injection Hc. }
  exists s. split; [reflexivity|]. split; [exact Hc|].
  destruct (drain_guarantee 1 [0] Sample.store Sample.one_task s
              ltac:(lia) Hrun Hc)
    as (_ & _ & _ & _ & _ & _ & _ & _ & _ & Hcount & Honce & _).
  split; [exact (Hcount signals signals_counts_Done 0)|].
  exact (Honce 0 eq_refl).
Defined.

(** ** One task that embeds [BasicRequest] *)

Section Jobs.
Context {D : Type} `{!Decoder D} `{!Requester}.

Lemma Job_Request_eq (j : Job D) :
  Request j =
  ((NewRequest "GET" (url (basic j))).1,
   mkJob (Basic.SetErr (Wrap (NewRequest "GET" (url (basic j))).2 msg_create)
            (basic j))
     (target j) (signals j)).
Proof.
  simpl. unfold Job_Request, Basic.Request.
  by destruct (NewRequest "GET" (url (basic j))).
Qed.

Lemma Job_SetErr_Some (e : goerror) (j : Job D) :
  Err (SetErr (Some e) j) = Some e.
Proof. simpl. apply SetErr_Some. Qed.

Lemma Job_SetErr_nil (j : Job D) : Err (SetErr nil j) = Err j.
Proof. simpl. apply SetErr_nil_Err. Qed.

Lemma Job_SetErr_latch (e : error) (j : Job D) :
  Err (SetErr e j) = last_non_nil [Err j; e].
Proof.
  destruct e as [e|].
  - rewrite Job_SetErr_Some. simpl. done.
  - rewrite Job_SetErr_nil. simpl. by destruct (Basic.Err (basic j)).
Qed.

Lemma serve_fetch_error (transport : option HttpRequest → reply)
    (j : Job D) (e : goerror) :
  transport (Request j).1 = inr e →
  Err (serve transport j) = Some (Wrapped e msg_http)
  ∧ target (serve transport j) = target j.
Proof.
  unfold serve. rewrite Job_Request_eq. cbn [fst]. intros ->.
  split; [apply SetErr_Some|done].
Qed.

(** A call of the worker on the task it holds, as a step of the pool. *)
Lemma step_call {T : Type} `{!JSONRequest D T} (s : sys T) (w : nat)
    (rep : reply) (pc pc' : wstate) (r : ptr) (t' : T) (ev : event) :
  crashed s = false →
  workers s !! w = Some pc →
  holding pc = Some r →
  call w rep pc (heap s r) = Some (pc', t', ev) →
  step (LWork w rep) s =
  Some (mkSys (caller s) (closed s) (wg s) (<[w:=pc']> (workers s))
          (<[r:=t']> (heap s)) (ev :: log s) false).
Proof.
  intros Hsound Hw Hr Hcall. unfold step.
  by rewrite Hsound, Hw, Hr, Hcall.
Qed.

(** C4. Transport failure short-circuits: when the fetch of worker [w] for
    task [r] returns an error, the next two calls of the worker are
    [SetErr] with the wrapped transport error and [Done]; there is no
    decode and no release; the latch of [r] holds the transport error and
    its decode target is as before; every other task and every other
    worker is untouched, and [w] is back at the channel. *)
Theorem transport_failure_short_circuits (s : sys (Job D)) (w : nat)
    (r : ptr) (req : option HttpRequest) (e : goerror) (rep1 rep2 : reply) :
  crashed s = false →
  workers s !! w = Some (WFetch r req) →
  ∃ s', run [LWork w (inr e); LWork w rep1; LWork w rep2] s = Some s'
    ∧ workers s' = <[w:=WRecv]> (workers s)
    ∧ log s' = [EvDone w r; EvSetErr w r (Some (Wrapped e msg_http));
                EvFetch w r] ++ log s
    ∧ Err (heap s' r) = Some (Wrapped e msg_http)
    ∧ target (heap s' r) = target (heap s r)
    ∧ signals (heap s' r) = S (signals (heap s r))
    ∧ (∀ r', r' ≠ r → heap s' r' = heap s r')
    ∧ caller s' = caller s ∧ closed s' = closed s ∧ wg s' = wg s
    ∧ crashed s' = false
    ∧ (∀ transport j,
         transport (Request j).1 = inr e →
         Err (serve transport j) = Some (Wrapped e msg_http)
         ∧ target (serve transport j) = target j).
Proof.
  intros Hsound Hw.
  pose proof (lookup_lt_Some _ _ _ Hw) as Hlt.
  eexists. split.
  { simpl.
    rewrite (step_call s w (inr e) _ (WFetchErr r e) r (heap s r)
               (EvFetch w r) Hsound Hw eq_refl eq_refl).
    erewrite step_call; [| done | simpl; by apply list_lookup_insert_eq
                        | done | reflexivity ].
    simpl.
    erewrite step_call; [| done | simpl; apply list_lookup_insert_eq;
                                  by rewrite length_insert
                        | done | reflexivity ].
    reflexivity. }
  simpl. rewrite !list_insert_insert_eq, !fn_lookup_insert.
  split; [done|]. split; [done|].
  split; [apply SetErr_Some|].
  split; [done|]. split; [done|].
  split; [intros r' Hne; by rewrite !fn_lookup_insert_ne|].
  split; [done|]. split; [done|]. split; [done|]. split; [done|].
  intros transport j. apply serve_fetch_error.
Qed.

(** C5. Release-error overwrite: when the fetch succeeds, the release of
    the body is the last call before [Done], after the decode and after
    any decode error has been recorded, and its result goes through
    [SetErr]: the latch ends as the last non-nil of the error left by
    [Request], the decode error and the release error.  So a release
    error is what the latch holds in the end, also when the decode
    succeeded and also when an earlier error was recorded. *)
Theorem release_error_overwrites (w : nat) (r : ptr) (resp : Response)
    (j j1 : Job D) (req : option HttpRequest) (d : D) (oe : error) :
  Request j = (req, j1) →
  Decode (Body resp) (target j1) = (d, oe) →
  drive 6 w (inl resp) (WRequest r) j =
    (WRecv, turn (λ _, inl resp) j, turn_calls w r oe)
  ∧ Err (serve (λ _, inl resp) j) =
    last_non_nil [Err j1; Wrap oe msg_json; CloseErr resp]
  ∧ (∀ ce, CloseErr resp = Some ce →
           Err (serve (λ _, inl resp) j) = Some ce)
  ∧ (∀ ce, oe = nil → CloseErr resp = Some ce →
           Err (serve (λ _, inl resp) j) = Some ce
           ∧ target (serve (λ _, inl resp) j) = d).
Proof.
  intros Hreq Hdec.
  assert (Err (serve (λ _, inl resp) j) =
          last_non_nil [Err j1; Wrap oe msg_json; CloseErr resp]) as Hlatch.
  { unfold serve. rewrite Hreq. cbn [Data Job_JSONRequest]. rewrite Hdec.
    destruct oe as [e|].
    - rewrite Job_SetErr_latch.
      change (Err (SetErr (Wrap (Some e) msg_json) (Store d j1)))
        with (Err (SetErr (Some (Wrapped e msg_json)) (Store d j1))).
      rewrite Job_SetErr_Some. simpl. by destruct (CloseErr resp).
    - rewrite Job_SetErr_latch. simpl.
      by destruct (CloseErr resp), (Basic.Err (basic j1)). }
  split; [by apply drive_fetch_ok with j1 req d|].
  split; [done|].
  split.
  - intros ce Hce. rewrite Hlatch, Hce. simpl. done.
  - intros ce -> Hce. split.
    + rewrite Hlatch, Hce. simpl. done.
    + unfold serve. rewrite Hreq. cbn [Data Job_JSONRequest].
      rewrite Hdec. done.
Qed.

(** C6. Descriptor failure does not short-circuit: when [http.NewRequest]
    fails, [Request] records the wrapped construction error and hands back
    whatever descriptor it got; the worker's next call is the fetch with
    that descriptor; and when that fetch fails, its wrapped error replaces
    the construction error in the latch. *)
Theorem descriptor_failure_still_fetches (j : Job D)
    (req : option HttpRequest) (ne : goerror) :
  NewRequest "GET" (url (basic j)) = (req, Some ne) →
  ∃ j1, Request j = (req, j1)
    ∧ Err j1 = Some (Wrapped ne msg_create)
    ∧ (∀ w r rep,
         call w rep (WRequest r) j = Some (WFetch r req, j1, EvRequest w r))
    ∧ (∀ w r rep, ∃ pc, call w rep (WFetch r req) j1
                        = Some (pc, j1, EvFetch w r))
    ∧ (∀ transport e,
         transport req = inr e →
         Err (serve transport j) = Some (Wrapped e msg_http))
    ∧ (∀ w r e,
         drive 6 w (inr e) (WRequest r) j =
         (WRecv, turn (λ _, inr e) j,
          [EvRequest w r; EvFetch w r;
           EvSetErr w r (Some (Wrapped e msg_http)); EvDone w r])).
Proof.
  intros Hnew.
  pose proof (Job_Request_eq j) as Hreq. rewrite Hnew in Hreq.
  cbn [fst snd] in Hreq. eexists. split; [exact Hreq|].
  split; [simpl; apply SetErr_Some|].
  split; [intros w r rep; cbn [call]; by rewrite Hreq|].
  split; [intros w r rep; destruct rep; cbn [call]; eauto|].
  split.
  - intros transport e Htr. unfold serve. rewrite Hreq, Htr.
    apply SetErr_Some.
  - intros w r e. by eapply drive_fetch_error.
Qed.

End Jobs.

Lemma transport_failure_short_circuits_witness :
  crashed Sample.fetching_state = false
  ∧ workers Sample.fetching_state !! 0
    = Some (WFetch 0 (Some (mkHttpRequest "GET" "http://a")))
  ∧ ∃ s', run [LWork 0 Sample.refused; LWork 0 Sample.ok; LWork 0 Sample.ok]
            Sample.fetching_state = Some s'
    ∧ Err (heap s' 0)
      = Some (Wrapped (Failure "connection refused") msg_http)
    ∧ target (heap s' 0) = 0.
Proof.
  split; [reflexivity|]. split; [reflexivity|].
  destruct (transport_failure_short_circuits Sample.fetching_state 0 0
              (Some (mkHttpRequest "GET" "http://a"))
              (Failure "connection refused") Sample.ok Sample.ok
              eq_refl eq_refl)
    as (s' & Hrun & _ & _ & Herr & Htarget & _).
  exists s'. split; [exact Hrun|]. split; [exact Herr|exact Htarget].
Defined.

Lemma release_error_overwrites_witness :
  Request (Sample.store 0)
  = (Some (mkHttpRequest "GET" "http://a"), Sample.store 0)
  ∧ Decode "42" (target (Sample.store 0)) = (42, nil)
  ∧ Err (serve (λ _, Sample.leaky) (Sample.store 0))
    = Some (Failure "close: broken pipe").
Proof.
  assert (Request (Sample.store 0)
          = (Some (mkHttpRequest "GET" "http://a"), Sample.store 0))
    as Hreq by reflexivity.
  assert (Decode "42" (target (Sample.store 0)) = (42, nil))
    as Hdec by reflexivity.
  split; [exact Hreq|]. split; [exact Hdec|].
  exact (proj1 (proj2 (proj2
           (release_error_overwrites 0 0
              (mkResponse "42" (Some (Failure "close: broken pipe")))
              (Sample.store 0) (Sample.store 0)
              (Some (mkHttpRequest "GET" "http://a")) 42 nil Hreq Hdec)))
           (Failure "close: broken pipe") eq_refl).
Defined.

Lemma descriptor_failure_still_fetches_witness :
  NewRequest "GET" (url (basic (Sample.store 1)))
  = (None, Some (Failure "parse: empty url"))
  ∧ Err (serve (λ _, Sample.refused) (Sample.store 1))
    = Some (Wrapped (Failure "connection refused") msg_http).
Proof.
  assert (NewRequest "GET" (url (basic (Sample.store 1)))
          = (None, Some (Failure "parse: empty url")))
    as Hnew by reflexivity.
  split; [exact Hnew|].
  destruct (descriptor_failure_still_fetches (Sample.store 1) None
              (Failure "parse: empty url") Hnew)
    as (j1 & _ & _ & _ & _ & Hfetch & _).
  exact (Hfetch (λ _, Sample.refused) (Failure "connection refused") eq_refl).
Defined.

(** ** The entry points *)

Section Entry.
Context {D T : Type} `{!JSONRequest D T} `{!Decoder D}.

Lemma DoN_eq (n : Z) (rqs : list ptr) (h : ptr → T) :
  DoN n rqs h = batch rqs (NewPool (Z.max n 1) h).
Proof.
  unfold DoN. destruct (Z.ltb_spec n 1).
  - by rewrite Z.max_r by lia.
  - by rewrite Z.max_l by lia.
Qed.

Lemma Do_eq (rqs : list ptr) (h : ptr → T) :
  (Z.of_nat (length rqs) < 2 ^ 64)%Z →
  Do rqs h = batch rqs (NewPool (Z.of_nat (length rqs)) h).
Proof.
  intros Hlen. unfold Do, to_uint. by rewrite Z.mod_small by lia.
Qed.

Lemma send_rendezvous (N : nat) (rqs : list ptr) (s s' : sys T) (w : nat) :
  inv N rqs s → step (LSend w) s = Some s' →
  workers s !! w = Some WRecv
  ∧ busy (workers s') = S (busy (workers s)).
Proof.
  intros Hinv. unfold step. rewrite (inv_sound _ _ _ Hinv).
  pose proof (inv_caller _ _ _ Hinv) as Hcl.
  destruct (caller s) as [[|r todo]| |]; try done.
  destruct (workers s !! w) as [pc|] eqn:Hw; try done.
  destruct pc; try done.
  rewrite Hcl. intros [= <-]. split; [done|]. simpl.
  pose proof (busy_insert _ _ _ (WRequest r) Hw) as Hb.
  rewrite indicator_false in Hb by (by intros [? ?]).
  rewrite indicator_true in Hb by (by eexists). lia.
Qed.

(** C7, as amended. Bounded concurrency: at no point of a [DoN(n, tasks)]
    are more than [max(n, 1)] tasks in the hands of the workers (received
    and not yet [Done]), and so no more than that are in the middle of the
    fetch; the tasks in flight are exactly those received and not yet
    [Done]; and a send happens only together with the receive of a worker
    that was waiting at the channel. *)
Theorem bounded_concurrency (n : Z) (rqs : list ptr) (h : ptr → T)
    (ls : list label) (s : sys T) :
  (0 ≤ n < 2 ^ 64)%Z →
  run ls (DoN n rqs h) = Some s →
  fetching (workers s) ≤ busy (workers s)
  ∧ busy (workers s) ≤ Z.to_nat (Z.max n 1)
  ∧ length (taken (log s)) = length (finished (log s)) + busy (workers s)
  ∧ (∀ w s', step (LSend w) s = Some s' →
             workers s !! w = Some WRecv
             ∧ busy (workers s') = S (busy (workers s))).
Proof.
  intros Hn. rewrite DoN_eq. intros Hrun.
  split; [apply fetching_le_busy|].
  destruct (reach_NewPool (Z.max n 1) rqs h ls s ltac:(lia) Hrun)
    as [Hinv|(_ & Hcr & Hnil & _ & Hlog)].
  - split; [|split].
    + pose proof (busy_le_alive (workers s)).
      pose proof (alive_le_length (workers s)).
      pose proof (inv_size _ _ _ Hinv). lia.
    + apply (inv_flight _ _ _ Hinv).
    + intros w s'. by apply send_rendezvous with (Z.to_nat (Z.max n 1)) rqs.
  - rewrite Hnil, Hlog. split; [unfold busy; simpl; lia|]. split; [done|].
    intros w s'. by rewrite step_crashed.
Qed.

(** What every schedule of a pool with a worker to take the tasks does:
    it keeps its size, it does not panic, it is not longer than the
    measure of the first state allows, it is never stuck before the caller
    is back, and at that point all tasks were received in the order given,
    each has had its [Done], on the log and on the object, the channel is
    closed and the workers are gone. *)
Lemma session_total (n : Z) (rqs : list ptr) (h : ptr → T)
    (ls : list label) (s : sys T) :
  (0 ≤ n < 2 ^ 63)%Z → (rqs = [] ∨ 0 < n)%Z →
  run ls (batch rqs (NewPool n h)) = Some s →
  length (workers s) = Z.to_nat n
  ∧ crashed s = false
  ∧ length ls + measure s ≤ measure (batch rqs (NewPool n h))
  ∧ (caller s ≠ CReturned → ∃ l s', step l s = Some s')
  ∧ (caller s = CReturned →
     rev (taken (log s)) = rqs
     ∧ (∀ r, occurrences r (finished (log s)) = occurrences r rqs)
     ∧ closed s = true
     ∧ (∀ w pc, workers s !! w = Some pc → pc = WExit)
     ∧ (∀ l, step l s = None)
     ∧ (∀ count, counts_Done count →
          ∀ r, count (heap s r) = count (h r) + occurrences r rqs)
     ∧ (∀ r, occurrences r rqs = 1 →
          ∃ rep, heap s r = turn (λ _, rep) (h r))
     ∧ (∀ r, r ∉ rqs → heap s r = h r)).
Proof.
  intros Hn Hsize Hrun.
  pose proof (inv_init n rqs h Hn) as Hinit.
  pose proof (inv_run _ _ _ _ _ Hinit Hrun) as Hinv.
  split; [apply (inv_size _ _ _ Hinv)|].
  split; [apply (inv_sound _ _ _ Hinv)|].
  split; [by apply (run_measure _ _ _ _ _ Hinit)|].
  split.
  - apply (progress _ _ _ Hinv). destruct Hsize; [by left|right; lia].
  - intros Hc.
    destruct (returned_drained _ _ _ Hinv Hc)
      as (H1 & H2 & H3 & H4 & H5 & H6 & H7).
    destruct (returned_store n rqs h ls s Hn Hrun Hc) as (S1 & S2 & S3).
    done.
Qed.

(** Pool sizing of [DoN] below the overflow: for every [n] below [2^63]
    the pool that [DoN(n, tasks...)] makes has [max(n, 1)] workers, all
    waiting at the channel, and a barrier counting as many; the pool keeps
    that size; every schedule is finite and is never stuck before the
    caller is back; and when the caller is back all tasks were sent, in the
    order given, each object has had its [Done], and the pool is
    stopped. *)
Theorem DoN_pool_size (n : Z) (rqs : list ptr) (h : ptr → T) :
  (0 ≤ n < 2 ^ 63)%Z →
  DoN n rqs h =
    mkSys (CDo rqs) false (Z.max n 1)
      (replicate (Z.to_nat (Z.max n 1)) WRecv) h [] false
  ∧ ∀ ls s, run ls (DoN n rqs h) = Some s →
      length (workers s) = Z.to_nat (Z.max n 1)
      ∧ crashed s = false
      ∧ length ls + measure s ≤ measure (DoN n rqs h)
      ∧ (caller s ≠ CReturned → ∃ l s', step l s = Some s')
      ∧ (caller s = CReturned →
         rev (taken (log s)) = rqs
         ∧ (∀ r, occurrences r (finished (log s)) = occurrences r rqs)
         ∧ closed s = true
         ∧ (∀ w pc, workers s !! w = Some pc → pc = WExit)
         ∧ (∀ l, step l s = None)
         ∧ (∀ count, counts_Done count →
              ∀ r, count (heap s r) = count (h r) + occurrences r rqs)
         ∧ (∀ r, occurrences r rqs = 1 →
              ∃ rep, heap s r = turn (λ _, rep) (h r))
         ∧ (∀ r, r ∉ rqs → heap s r = h r)).
Proof.
  intros Hn. rewrite DoN_eq. split.
  - by rewrite NewPool_small by lia.
  - intros ls s. apply session_total; lia.
Qed.

(** C9. Full parallelism: [Do(tasks...)] makes a pool of exactly
    [len(tasks)] workers, all waiting at the channel; every schedule is
    finite and never stuck before the caller is back; and the caller is
    back only when every task was received and has had its [Done], the
    channel is closed and all workers are gone.  That the tasks are done
    holds of the objects, not only of the log: whatever counts the [Done]
    calls on a task object shows as many more as the task was sent, the
    object of a task that was sent once is the result of one whole turn of
    the worker on the object handed in, and other objects are as they
    were. *)
Theorem Do_full_parallelism (rqs : list ptr) (h : ptr → T) :
  (Z.of_nat (length rqs) < 2 ^ 63)%Z →
  Do rqs h =
    mkSys (CDo rqs) false (Z.of_nat (length rqs))
      (replicate (length rqs) WRecv) h [] false
  ∧ ∀ ls s, run ls (Do rqs h) = Some s →
      length (workers s) = length rqs
      ∧ crashed s = false
      ∧ length ls + measure s ≤ measure (Do rqs h)
      ∧ (caller s ≠ CReturned → ∃ l s', step l s = Some s')
      ∧ (caller s = CReturned →
         rev (taken (log s)) = rqs
         ∧ (∀ r, occurrences r (finished (log s)) = occurrences r rqs)
         ∧ closed s = true
         ∧ (∀ w pc, workers s !! w = Some pc → pc = WExit)
         ∧ (∀ l, step l s = None)
         ∧ (∀ count, counts_Done count →
              ∀ r, count (heap s r) = count (h r) + occurrences r rqs)
         ∧ (∀ r, occurrences r rqs = 1 →
              ∃ rep, heap s r = turn (λ _, rep) (h r))
         ∧ (∀ r, r ∉ rqs → heap s r = h r)).
Proof.
  intros Hlen. rewrite Do_eq by lia. split.
  - rewrite NewPool_small by lia. by rewrite Nat2Z.id.
  - intros ls s Hrun.
    rewrite <- (Nat2Z.id (length rqs)) at 1.
    apply session_total; [lia| |done].
    destruct rqs; [by left|right; simpl; lia].
Qed.

(** C10. Empty batch: [Do()] makes a pool without workers and with the
    barrier at zero; the only thing that can happen is the close, then the
    return of [wg.Wait()], and then nothing; nothing is sent, nothing is
    logged and nothing panics. *)
Theorem Do_empty_batch (h : ptr → T) :
  Do [] h = mkSys (CDo []) false 0 [] h [] false
  ∧ run [LClose; LWait] (Do [] h)
    = Some (mkSys CReturned true 0 [] h [] false)
  ∧ (∀ l, is_Some (step l (Do [] h)) ↔ l = LClose)
  ∧ (∀ l, is_Some (step l (mkSys CWait true 0 [] h [] false)) ↔ l = LWait)
  ∧ (∀ l, step l (mkSys CReturned true 0 [] h [] false) = None).
Proof.
  repeat split.
  - destruct l as [w| | |w rep]; try done; simpl; by intros [? ?].
  - by intros ->.
  - destruct l as [w| | |w rep]; try done; simpl; by intros [? ?].
  - by intros ->.
  - by destruct l.
Qed.

End Entry.

(** ** Examples at the entry points *)

(** With [n = 0] and one task, [DoN] runs a pool of one worker, and that
    worker is in the middle of the fetch after two steps: one task is in
    flight although [n] is zero. *)
Lemma bounded_concurrency_counterexample :
  (0 ≤ 0 < 2 ^ 64)%Z
  ∧ (0 < Z.of_nat (length [0]))%Z
  ∧ ∃ s, run [LSend 0; LWork 0 Sample.ok] (DoN 0 [0] Sample.store) = Some s
         ∧ fetching (workers s) = 1
         ∧ ¬ (Z.of_nat (fetching (workers s)) ≤ 0)%Z.
Proof.
  split; [lia|]. split; [simpl; lia|].
  eexists. split; [reflexivity|]. split; [reflexivity|].
  vm_compute. intros Hle. by apply Hle.
Qed.

Lemma bounded_concurrency_witness :
  (0 ≤ 0 < 2 ^ 64)%Z
  ∧ ∃ s, run [LSend 0; LWork 0 Sample.ok] (DoN 0 [0] Sample.store) = Some s
         ∧ busy (workers s) ≤ Z.to_nat (Z.max 0 1).
Proof.
  split; [lia|]. eexists. split; [reflexivity|].
  exact (proj1 (proj2 (bounded_concurrency 0 [0] Sample.store
                         [LSend 0; LWork 0 Sample.ok] _
                         ltac:(lia) eq_refl))).
Defined.

(** C8. Pool sizing of [DoN] at the failing input: for the largest [uint]
    the cast [int(n)] in [NewPool] gives [-1], [wg.Add(-1)] panics, and
    [DoN] ends there: no worker is started, so there is no pool of
    [max(n, 1)] workers, and nothing is sent. *)
Theorem DoN_max_uint_panics :
  (0 ≤ 2 ^ 64 - 1 < 2 ^ 64)%Z
  ∧ to_int (2 ^ 64 - 1) = (-1)%Z
  ∧ crashed (DoN (2 ^ 64 - 1) [0] Sample.store) = true
  ∧ workers (DoN (2 ^ 64 - 1) [0] Sample.store) = []
  ∧ Z.of_nat (length (workers (DoN (2 ^ 64 - 1) [0] Sample.store)))
    ≠ Z.max (2 ^ 64 - 1) 1
  ∧ (∀ l, step l (DoN (2 ^ 64 - 1) [0] Sample.store) = None).
Proof.
  split; [lia|]. split; [reflexivity|].
  split; [reflexivity|]. split; [reflexivity|].
  split; [by vm_compute|].
  intros l. by apply step_crashed.
Qed.

Lemma DoN_pool_size_witness :
  (0 ≤ 2 < 2 ^ 63)%Z
  ∧ DoN 2 [0; 1; 0] Sample.store =
    mkSys (CDo [0; 1; 0]) false 2 [WRecv; WRecv] Sample.store [] false.
Proof.
  split; [lia|].
  exact (proj1 (DoN_pool_size 2 [0; 1; 0] Sample.store ltac:(lia))).
Defined.

Lemma Do_full_parallelism_witness :
  (Z.of_nat (length [0; 1]) < 2 ^ 63)%Z
  ∧ Do [0; 1] Sample.store =
    mkSys (CDo [0; 1]) false 2 [WRecv; WRecv] Sample.store [] false.
Proof.
  split; [simpl; lia|].
  exact (proj1 (Do_full_parallelism [0; 1] Sample.store
                  ltac:(simpl; lia))).
Defined.

(** * Further properties *)

(** ** [BasicRequest.Request] *)

Lemma SetErr_idempotent (e : error) (r : BasicRequest) :
  Basic.SetErr e (Basic.SetErr e r) = Basic.SetErr e r.
Proof. destruct r as [[e0|] u], e as [e|]; reflexivity. Qed.

Lemma SetErr_keeps_url (e : error) (r : BasicRequest) :
  url (Basic.SetErr e r) = url r.
Proof. destruct r as [[e0|] u], e as [e|]; reflexivity. Qed.

Lemma SetErr_latch (e : error) (r : BasicRequest) :
  Basic.Err (Basic.SetErr e r) = last_non_nil [Basic.Err r; e].
Proof. destruct r as [[e0|] u], e as [e|]; reflexivity. Qed.

Section RequestFacts.
Context `{!Requester}.

(** [Request] can be called again: the second call hands back the same
    descriptor and leaves the object as the first call left it. *)
Theorem Request_again (r : BasicRequest) :
  Basic.Request (Basic.Request r).2 = Basic.Request r.
Proof.
  unfold Basic.Request.
  destruct (NewRequest "GET" (url r)) as [req e] eqn:Hnew. cbn [snd].
  rewrite SetErr_keeps_url, Hnew. by rewrite SetErr_idempotent.
Qed.

(** [Request] hands back the descriptor of [http.NewRequest] for the
    method GET and the URL of the object, and never changes that URL.  It
    leaves the recorded error alone when the construction succeeds, also
    an error from before, and replaces it by the wrapped construction
    error when the construction fails. *)
Theorem Request_latch (r : BasicRequest) :
  (Basic.Request r).1 = (NewRequest "GET" (url r)).1
  ∧ url (Basic.Request r).2 = url r
  ∧ Basic.Err (Basic.Request r).2 =
    match (NewRequest "GET" (url r)).2 with
    | Some e => Some (Wrapped e msg_create)
    | None => Basic.Err r
    end.
Proof.
  unfold Basic.Request.
  destruct (NewRequest "GET" (url r)) as [req [e|]]; cbn [fst snd].
  - split; [done|]. split; [apply SetErr_keeps_url|apply SetErr_Some].
  - split; [done|]. split; [apply SetErr_keeps_url|apply SetErr_nil_Err].
Qed.

End RequestFacts.

(** ** One turn of the worker on a task that embeds [BasicRequest] *)

Section TurnFacts.
Context {D : Type} `{!Decoder D} `{!Requester}.

Lemma latch_step (l : list error) (e : error) (j : Job D) :
  Err j = last_non_nil l → Err (SetErr e j) = last_non_nil (l ++ [e]).
Proof.
  intros Hl. rewrite Job_SetErr_latch, last_non_nil_snoc, Hl. simpl.
  destruct e; [done|]. by destruct (last_non_nil l).
Qed.

Lemma last_non_nil_keeps (e0 : goerror) (l : list error) :
  last_non_nil (Some e0 :: l) ≠ nil.
Proof. simpl. by destruct (last_non_nil l). Qed.

(** What a turn leaves in the latch is the last non-nil of the error the
    task came with and of the errors handed to [SetErr] during the turn, in
    the order of the calls.  So a turn never clears an error: a task that
    comes with an error leaves with one, whatever the collaborators do.
    A turn never changes the URL and calls [Done] once. *)
Theorem turn_latch (transport : option HttpRequest → reply) (j : Job D) :
  Err (turn transport j) = last_non_nil (Err j :: recorded transport j)
  ∧ url (basic (turn transport j)) = url (basic j)
  ∧ signals (turn transport j) = S (signals j)
  ∧ (Err j ≠ nil → Err (turn transport j) ≠ nil).
Proof.
  assert (Err (turn transport j) = last_non_nil (Err j :: recorded transport j))
    as Hlatch.
  { unfold turn, serve, recorded. rewrite Job_Request_eq.
    destruct (NewRequest "GET" (url (basic j))) as [req e0]. cbn [fst snd].
    set (j1 := mkJob _ _ _).
    assert (Err j1 = last_non_nil [Err j; Wrap e0 msg_create]) as H1
      by apply SetErr_latch.
    cbv beta iota zeta.
    destruct (transport req) as [resp|e].
    - change (Data j1) with (target j).
      destruct (Decode (Body resp) (target j)) as [d [e|]].
      + apply (latch_step [Err j; Wrap e0 msg_create; Wrap (Some e) msg_json]).
        by apply (latch_step [Err j; Wrap e0 msg_create]).
      + by apply (latch_step [Err j; Wrap e0 msg_create]).
    - by apply (latch_step [Err j; Wrap e0 msg_create]). }
  split; [exact Hlatch|].
  split; [|split].
  - unfold turn, serve. rewrite Job_Request_eq. cbv beta iota zeta.
    cbn [fst snd].
    destruct (transport _) as [resp|e]; [|simpl; by rewrite !SetErr_keeps_url].
    destruct (Decode _ _) as [d [e|]]; simpl; by rewrite !SetErr_keeps_url.
  - unfold turn, serve. rewrite Job_Request_eq. cbv beta iota zeta.
    cbn [fst snd].
    destruct (transport _) as [resp|e]; [|done].
    by destruct (Decode _ _) as [d [e|]].
  - intros Hne. rewrite Hlatch.
    destruct (Err j) as [e0|]; [|done]. apply last_non_nil_keeps.
Qed.

(** When nothing fails, a turn stores the decoded value in the target and
    leaves the latch as it found it: a task that is sent again after a
    failure still shows the old error. *)
Theorem turn_success (transport : option HttpRequest → reply) (j : Job D)
    (req : option HttpRequest) (resp : Response) (d : D) :
  NewRequest "GET" (url (basic j)) = (req, nil) →
  transport req = inl resp →
  Decode (Body resp) (target j) = (d, nil) →
  CloseErr resp = nil →
  Err (turn transport j) = Err j
  ∧ target (turn transport j) = d
  ∧ basic (turn transport j) = basic j.
Proof.
  intros Hnew Htr Hdec Hclose.
  unfold turn, serve. rewrite Job_Request_eq, Hnew. cbn [fst snd].
  cbv beta iota zeta. rewrite Htr.
  change (Data (mkJob ?b (target j) ?s)) with (target j).
  rewrite Hdec, Hclose. simpl.
  by destruct (basic j) as [[e|] u].
Qed.

End TurnFacts.

Lemma turn_success_witness :
  NewRequest "GET" (url (basic Sample.stale))
  = (Some (mkHttpRequest "GET" "http://a"), nil)
  ∧ Decode "42" (target Sample.stale) = (42, nil)
  ∧ Err (turn (λ _, Sample.ok) Sample.stale) = Some (Failure "left over")
  ∧ target (turn (λ _, Sample.ok) Sample.stale) = 42.
Proof.
  assert (NewRequest "GET" (url (basic Sample.stale))
          = (Some (mkHttpRequest "GET" "http://a"), nil)) as Hnew
    by reflexivity.
  assert (Decode "42" (target Sample.stale) = (42, nil)) as Hdec
    by reflexivity.
  split; [exact Hnew|]. split; [exact Hdec|].
  destruct (turn_success (λ _, Sample.ok) Sample.stale
              (Some (mkHttpRequest "GET" "http://a"))
              (mkResponse "42" None) 42 Hnew eq_refl Hdec eq_refl)
    as (Herr & Htarget & _).
  split; [exact Herr|exact Htarget].
Defined.

(** ** The pool at any point of a schedule *)

Lemma sum_wrank_replicate (n : nat) :
  sum_list (wrank <$> replicate n WRecv) = n.
Proof. induction n as [|n IH]; [done|]. simpl. f_equal. exact IH. Qed.

Lemma protocol_fetches (w : nat) (r : ptr) (evs : list event) (ph : phase) :
  protocol w evs = Some ph →
  fetched_by w r evs = signalled w r evs + indicator (ph = Attempted r).
Proof.
  revert ph. induction evs as [|ev evs IH]; intros ph.
  - intros [= <-]. done.
  - rewrite protocol_cons.
    destruct (protocol w evs) as [ph'|] eqn:Hp; [|done]. simpl.
    specialize (IH ph' eq_refl). unfold fetched_by, signalled in *.
    rewrite !filter_cons. unfold observe, same.
    intros Hobs.
    destruct ev, ph'; simpl in *;
      repeat case_bool_decide; simplify_eq;
      repeat case_decide; simplify_eq; simpl in *;
      unfold indicator in *; repeat case_decide; simplify_eq; lia.
Qed.

Section PoolMore.
Context {D T : Type} `{!JSONRequest D T} `{!Decoder D}.

(** A task that was not handed to the pool is never touched: its object is
    the same at every point of every schedule. *)
Theorem unsubmitted_untouched (n : Z) (rqs : list ptr) (h : ptr → T)
    (ls : list label) (s : sys T) (r : ptr) :
  (0 ≤ n < 2 ^ 64)%Z →
  run ls (batch rqs (NewPool n h)) = Some s →
  r ∉ rqs →
  heap s r = h r.
Proof.
  intros Hn Hrun Hr. destruct (Z.lt_ge_cases n (2 ^ 63)) as [Hlt|Hge].
  - rewrite (heap_frame_run (Z.to_nat n) rqs ls
               (batch rqs (NewPool n h)) s r); [| |done|done].
    + by rewrite NewPool_small by lia.
    + apply inv_init. lia.
  - rewrite NewPool_large in Hrun by lia.
    by apply run_crashed in Hrun as [_ ->].
Qed.

(** The tasks are received in the order of the argument list: what has
    been received is a prefix of the list, and the next send hands over the
    task at the position that equals the number of tasks received so
    far. *)
Theorem send_order (n : Z) (rqs : list ptr) (h : ptr → T)
    (ls : list label) (s : sys T) :
  (0 ≤ n < 2 ^ 64)%Z →
  run ls (batch rqs (NewPool n h)) = Some s →
  rev (taken (log s)) `prefix_of` rqs
  ∧ ∀ w s', step (LSend w) s = Some s' →
      ∃ r, rqs !! length (taken (log s)) = Some r
           ∧ taken (log s') = r :: taken (log s)
           ∧ workers s' !! w = Some (WRequest r).
Proof.
  intros Hn Hrun.
  destruct (reach_NewPool n rqs h ls s Hn Hrun)
    as [Hinv|(_ & Hcr & _ & _ & Hlog)].
  - pose proof (inv_order _ _ _ Hinv) as Ho. split.
    + exists (todo_of (caller s)). by rewrite Ho.
    + intros w s'. unfold step. rewrite (inv_sound _ _ _ Hinv).
      pose proof (inv_caller _ _ _ Hinv) as Hcl.
      destruct (caller s) as [[|r todo]| |]; try done.
      destruct (workers s !! w) as [pc|] eqn:Hw; try done.
      destruct pc; try done. rewrite Hcl. intros [= <-].
      exists r. simpl in *. split; [|split; [done|]].
      * rewrite <- Ho, lookup_app_r by (by rewrite length_rev).
        rewrite length_rev, Nat.sub_diag. done.
      * apply list_lookup_insert_eq. by eapply lookup_lt_Some.
  - rewrite Hlog. split; [apply prefix_nil|].
    intros w s'. by rewrite step_crashed.
Qed.

Lemma protocol_everyone (N : nat) (rqs : list ptr) (s : sys T) (w : nat) :
  inv N rqs s →
  ∃ ph, protocol w (log s) = Some ph
        ∧ (caller s = CReturned → engaged ph = None).
Proof.
  intros Hinv. destruct (workers s !! w) as [pc|] eqn:Hw.
  - exists (phase_of pc). split; [by apply (inv_proto _ _ _ Hinv)|].
    intros Hc.
    destruct (returned_drained _ _ _ Hinv Hc) as (_ & _ & Hex & _).
    by rewrite (Hex _ _ Hw).
  - exists Idle. split; [|done].
    apply (inv_quiet _ _ _ Hinv). by apply lookup_ge_None.
Qed.

(** No retry and no skipped fetch: at every point a worker has asked the
    transport for a task at most as often as it has received the task and
    at least as often as it has called [Done] on it, with at most one
    receive not yet followed by [Done]; when the caller is back from
    [Stop] the three numbers are the same. *)
Theorem no_retry (n : Z) (rqs : list ptr) (h : ptr → T)
    (ls : list label) (s : sys T) (w : nat) (r : ptr) :
  (0 ≤ n < 2 ^ 64)%Z →
  run ls (batch rqs (NewPool n h)) = Some s →
  signalled w r (log s) ≤ fetched_by w r (log s)
  ∧ fetched_by w r (log s) ≤ took w r (log s)
  ∧ took w r (log s) ≤ S (signalled w r (log s))
  ∧ (caller s = CReturned →
     fetched_by w r (log s) = took w r (log s)
     ∧ signalled w r (log s) = took w r (log s)).
Proof.
  intros Hn Hrun.
  destruct (reach_NewPool n rqs h ls s Hn Hrun)
    as [Hinv|(_ & _ & _ & Hc & Hlog)].
  - destruct (protocol_everyone _ _ _ w Hinv) as (ph & Hp & Hret).
    pose proof (protocol_counts w r _ _ Hp) as Htook.
    pose proof (protocol_fetches w r _ _ Hp) as Hfetched.
    assert (indicator (ph = Attempted r) ≤ indicator (engaged ph = Some r)
            ∧ indicator (engaged ph = Some r) ≤ 1) as [H1 H2].
    { destruct ph; unfold indicator; simpl; repeat case_decide;
        simplify_eq; lia. }
    split; [lia|]. split; [lia|]. split; [lia|].
    intros Hc. specialize (Hret Hc). rewrite Hret in Htook.
    rewrite indicator_false in Htook by done.
    rewrite indicator_false in Hfetched by (intros ->; by simpl in Hret).
    lia.
  - rewrite Hlog. unfold signalled, fetched_by, took. simpl.
    split; [lia|]. split; [lia|]. split; [lia|].
    intros Hc'. by rewrite Hc in Hc'.
Qed.

(** A pool without workers takes no task: with a task to send, nothing can
    move, so [p.Do] blocks for ever and the caller never gets to [Stop]. *)
Theorem NewPool_zero_blocks (r : ptr) (rqs : list ptr) (h : ptr → T) :
  (∀ l, step l (batch (r :: rqs) (NewPool 0 h)) = None)
  ∧ ∀ ls s, run ls (batch (r :: rqs) (NewPool 0 h)) = Some s →
      ls = [] ∧ caller s = CDo (r :: rqs) ∧ crashed s = false.
Proof.
  assert (∀ l, step l (batch (r :: rqs) (NewPool 0 h)) = None) as Hstuck.
  { intros l. by destruct l. }
  split; [exact Hstuck|].
  intros ls s. destruct ls as [|l ls]; simpl.
  - by intros [= <-].
  - by rewrite Hstuck.
Qed.

(** A pool size of [2^63] or more does not fit the barrier: [NewPool]
    panics before it starts a worker, and so does [DoN], which hands such
    an [n] on as it is; nothing moves after that. *)
Theorem NewPool_overflow (n : Z) (rqs : list ptr) (h : ptr → T) :
  (2 ^ 63 ≤ n < 2 ^ 64)%Z →
  crashed (NewPool n h) = true
  ∧ workers (NewPool n h) = []
  ∧ DoN n rqs h = batch rqs (NewPool n h)
  ∧ ∀ ls s, run ls (DoN n rqs h) = Some s →
      ls = [] ∧ caller s = CDo rqs ∧ log s = [].
Proof.
  intros Hn.
  assert (DoN n rqs h = batch rqs (NewPool n h)) as HDoN
    by (rewrite DoN_eq; by rewrite Z.max_l by lia).
  rewrite HDoN, NewPool_large by done.
  split; [done|]. split; [done|]. split; [done|].
  intros ls s Hrun. by apply run_crashed in Hrun as [-> ->].
Qed.

(** The barrier counts the workers that have not left: for a pool size
    below [2^63] nothing ever panics, the counter is the number of workers
    still in their loop, it stays between zero and the pool size, and no
    worker leaves before the channel is closed. *)
Theorem barrier_counts_workers (n : Z) (rqs : list ptr) (h : ptr → T)
    (ls : list label) (s : sys T) :
  (0 ≤ n < 2 ^ 63)%Z →
  run ls (batch rqs (NewPool n h)) = Some s →
  crashed s = false
  ∧ length (workers s) = Z.to_nat n
  ∧ wg s = Z.of_nat (alive (workers s))
  ∧ (0 ≤ wg s ≤ n)%Z
  ∧ (closed s = false → wg s = n)
  ∧ (wg s = 0%Z → ∀ w pc, workers s !! w = Some pc → pc = WExit).
Proof.
  intros Hn Hrun.
  pose proof (inv_run _ _ _ _ _ (inv_init n rqs h Hn) Hrun) as Hinv.
  pose proof (inv_wg _ _ _ Hinv) as Hwg.
  pose proof (inv_size _ _ _ Hinv) as Hsize.
  pose proof (alive_le_length (workers s)) as Hle.
  split; [apply (inv_sound _ _ _ Hinv)|]. split; [done|].
  split; [done|]. split; [lia|]. split.
  - intros Hcl. pose proof (inv_open _ _ _ Hinv Hcl). lia.
  - intros Hz w pc Hw. apply (alive_zero_lookup (workers s) w); [lia|done].
Qed.

(** For a batch that is not empty, [Do] is [DoN] with the number of tasks
    as [n]; for the empty batch they differ: [Do] starts no worker, and
    [DoN(0)] starts one. *)
Theorem Do_is_DoN (rqs : list ptr) (h : ptr → T) :
  (Z.of_nat (length rqs) < 2 ^ 64)%Z →
  (rqs ≠ [] → Do rqs h = DoN (to_uint (Z.of_nat (length rqs))) rqs h)
  ∧ workers (Do [] h) = []
  ∧ workers (DoN 0 [] h) = [WRecv].
Proof.
  intros Hlen. split; [|done].
  intros Hne. rewrite DoN_eq. unfold Do.
  assert (1 ≤ to_uint (Z.of_nat (length rqs)))%Z.
  { unfold to_uint. rewrite Z.mod_small by lia.
    destruct rqs; [done|simpl; lia]. }
  by rewrite Z.max_l by lia.
Qed.

(** No schedule is longer than seven steps for each task (the hand-over
    and at most six calls), one step for each worker to leave, and two for
    the caller to close and to return. *)
Theorem schedule_bound (n : Z) (rqs : list ptr) (h : ptr → T)
    (ls : list label) (s : sys T) :
  (0 ≤ n < 2 ^ 63)%Z →
  run ls (batch rqs (NewPool n h)) = Some s →
  length ls ≤ 7 * length rqs + Z.to_nat n + 2.
Proof.
  intros Hn Hrun.
  pose proof (run_measure _ _ _ _ _ (inv_init n rqs h Hn) Hrun) as Hm.
  rewrite NewPool_small in Hm by done.
  unfold measure, batch in Hm. simpl in Hm.
  rewrite sum_wrank_replicate in Hm. lia.
Qed.

End PoolMore.

(** ** Examples for the further properties *)

Lemma unsubmitted_untouched_witness :
  (0 ≤ 1 < 2 ^ 64)%Z
  ∧ (1 ∉ [0])
  ∧ ∃ s, run Sample.one_task (batch [0] (NewPool 1 Sample.store)) = Some s
         ∧ heap s 1 = Sample.store 1.
Proof.
  assert (1 ∉ [0]) as Hr.
  { apply not_elem_of_cons. split; [done|apply not_elem_of_nil]. }
  split; [lia|]. split; [exact Hr|].
  destruct (run Sample.one_task (batch [0] (NewPool 1 Sample.store)))
    as [s|] eqn:Hrun; [|by vm_compute in Hrun].
  exists s. split; [reflexivity|].
  exact (unsubmitted_untouched 1 [0] Sample.store Sample.one_task s 1
           ltac:(lia) Hrun Hr).
Defined.

Lemma send_order_witness :
  (0 ≤ 2 < 2 ^ 64)%Z
  ∧ ∃ s, run [LSend 1; LWork 1 Sample.refused]
           (batch [0; 1] (NewPool 2 Sample.store)) = Some s
         ∧ rev (taken (log s)) `prefix_of` [0; 1].
Proof.
  split; [lia|].
  destruct (run [LSend 1; LWork 1 Sample.refused]
              (batch [0; 1] (NewPool 2 Sample.store)))
    as [s|] eqn:Hrun; [|by vm_compute in Hrun].
  exists s. split; [reflexivity|].
  exact (proj1 (send_order 2 [0; 1] Sample.store
                  [LSend 1; LWork 1 Sample.refused] s ltac:(lia) Hrun)).
Defined.

Lemma no_retry_witness :
  (0 ≤ 1 < 2 ^ 64)%Z
  ∧ ∃ s, run Sample.one_task (batch [0] (NewPool 1 Sample.store)) = Some s
         ∧ fetched_by 0 0 (log s) ≤ took 0 0 (log s).
Proof.
  split; [lia|].
  destruct (run Sample.one_task (batch [0] (NewPool 1 Sample.store)))
    as [s|] eqn:Hrun; [|by vm_compute in Hrun].
  exists s. split; [reflexivity|].
  exact (proj1 (proj2 (no_retry 1 [0] Sample.store Sample.one_task s 0 0
                         ltac:(lia) Hrun))).
Defined.

Lemma NewPool_overflow_witness :
  (2 ^ 63 ≤ 2 ^ 63 < 2 ^ 64)%Z
  ∧ crashed (NewPool (2 ^ 63) Sample.store) = true.
Proof.
  split; [lia|].
  exact (proj1 (NewPool_overflow (2 ^ 63) [] Sample.store ltac:(lia))).
Defined.

Lemma barrier_counts_workers_witness :
  (0 ≤ 1 < 2 ^ 63)%Z
  ∧ ∃ s, run [LSend 0; LWork 0 Sample.ok]
           (batch [0] (NewPool 1 Sample.store)) = Some s
         ∧ wg s = Z.of_nat (alive (workers s)).
Proof.
  split; [lia|].
  destruct (run [LSend 0; LWork 0 Sample.ok]
              (batch [0] (NewPool 1 Sample.store)))
    as [s|] eqn:Hrun; [|by vm_compute in Hrun].
  exists s. split; [reflexivity|].
  exact (proj1 (proj2 (proj2
           (barrier_counts_workers 1 [0] Sample.store
              [LSend 0; LWork 0 Sample.ok] s ltac:(lia) Hrun)))).
Defined.

Lemma Do_is_DoN_witness :
  (Z.of_nat (length [0; 1]) < 2 ^ 64)%Z
  ∧ Do [0; 1] Sample.store = DoN (to_uint 2) [0; 1] Sample.store.
Proof.
  assert (Z.of_nat (length [0; 1]) < 2 ^ 64)%Z as Hlen by (simpl; lia).
  split; [exact Hlen|].
  exact (proj1 (Do_is_DoN [0; 1] Sample.store Hlen) ltac:(done)).
Defined.

Lemma schedule_bound_witness :
  (0 ≤ 1 < 2 ^ 63)%Z
  ∧ ∃ s, run Sample.one_task (batch [0] (NewPool 1 Sample.store)) = Some s
         ∧ length Sample.one_task ≤ 7 * length [0] + Z.to_nat 1 + 2.
Proof.
  split; [lia|].
  destruct (run Sample.one_task (batch [0] (NewPool 1 Sample.store)))
    as [s|] eqn:Hrun; [|by vm_compute in Hrun].
  exists s. split; [reflexivity|].
  exact (schedule_bound 1 [0] Sample.store Sample.one_task s
           ltac:(lia) Hrun).
Defined.
